(** * PageRank: the random-surfer sampler and the iterative solver

    A shallow embedding of [pagerank.py] and the properties of its three
    core functions, [transition_model], [sample_pagerank] and
    [iterate_pagerank], followed by [crawl] and [main].

    Modelling choices.
    - A Python [dict] keyed by page names is a [gmap string _], a Python
      [set] of page names is a [gset string].  A [for] loop over a dict
      walks [dict_keys], the key list of the map; the order of that list
      is the map's, not the insertion order of the dict.  Over exact
      numbers no result below depends on it, apart from which page a
      given draw of the generator selects.
    - Python floats are modelled by exact rationals ([Qc], rationals in
      lowest terms, so that equality of values is Leibniz equality).
      Rounding is outside that model; where a property is about the
      floats themselves, [transition_model] and [sample_pagerank] are
      given a second time over IEEE 754 binary64 ([transition_model64],
      [sample_pagerank64]).
    - A Python expression that may raise is a computation in the [res]
      monad; the [while] loop of the solver takes fuel and answers
      [OutOfFuel] when the fuel is spent.
    - The process-wide generator of the [random] module is an explicit
      state [rng]: an infinite sequence of draws of [random.random()] and
      a cursor.  A call of [random.choice] or of [random.choices] takes
      one draw.
    - [iterate_pagerank] assigns into the dict it is given; the model
      answers the value of that dict at the return together with the
      ranks. *)

From Stdlib Require Import QArith Qcanon Qcabs Qround Lqa.
From Stdlib Require Floats.
From stdpp Require Import base numbers option list gmap sets strings fin_maps.
From stdpp Require Import sorting.

#[local] Set Warnings "-clear-no-such-hyp".

Local Open Scope Qc_scope.

(** Closed terms that differ only in the proofs that their rationals are
    in lowest terms. *)
Ltac qc_canon :=
  repeat match goal with
    | |- @eq Qc _ _ => apply Qc_is_canon; reflexivity
    | |- _ => reflexivity
    | |- _ => progress f_equal
    end.

(** Linear goals over [Qc], sent to [lra] over [Q]. *)
Ltac qc_lra :=
  unfold Qcle, Qclt, Qcminus, Qcopp, Qcplus, Qcmult in *; simpl in *;
  rewrite ?Qred_correct in *; lra.

(** ** The Python runtime, as far as the program uses it *)

Inductive exn : Type :=
  | KeyError (k : string)
  | ZeroDivisionError
  | IndexError
  | ValueError.

Inductive res (A : Type) : Type :=
  | Ok (a : A)
  | Raise (e : exn)
  | OutOfFuel.

Arguments Ok {A} a.
Arguments Raise {A} e.
Arguments OutOfFuel {A}.

Global Instance res_ret : MRet res := λ A a, Ok a.
Global Instance res_bind : MBind res := λ A B f m,
  match m with
  | Ok a => f a
  | Raise e => Raise e
  | OutOfFuel => OutOfFuel
  end.

Global Instance res_fmap : FMap res := λ A B f m,
  match m with
  | Ok a => Ok (f a)
  | Raise e => Raise e
  | OutOfFuel => OutOfFuel
  end.

(** [for x in l: s = body(s, x)], with the loop state threaded through. *)
Fixpoint for_each {A S : Type} (l : list A) (s : S) (body : S → A → res S)
    : res S :=
  match l with
  | [] => Ok s
  | x :: l' => s' ← body s x; for_each l' s' body
  end.

(** [for i in range(n): s = body(s)]. *)
Fixpoint repeat_n {S : Type} (n : nat) (s : S) (body : S → res S) : res S :=
  match n with
  | O => Ok s
  | S n' => s' ← body s; repeat_n n' s' body
  end.

(** [x / y] on numbers, in exact arithmetic; [py_div64] below is the same
    division on binary64 floats. *)
Definition py_div (x y : Qc) : res Qc :=
  if decide (y = 0) then Raise ZeroDivisionError else Ok (x / y).

(** [m[k]] *)
Definition getitem {V : Type} (m : gmap string V) (k : string) : res V :=
  match m !! k with
  | Some v => Ok v
  | None => Raise (KeyError k)
  end.

(** A Python [int] that counts, as a number. *)
Abbreviation Qc_of_nat n := (Qc_of_Z (Z.of_nat n)).

(** [list(m.keys())], [list(m.values())], [len(m)] and [len(s)]. *)
Definition dict_keys {V : Type} (m : gmap string V) : list string :=
  (map_to_list m).*1.
Definition dict_values {V : Type} (m : gmap string V) : list V :=
  (map_to_list m).*2.
Definition len {V : Type} (m : gmap string V) : Qc := Qc_of_nat (size m).
Definition set_len (s : gset string) : Qc := Qc_of_nat (size s).

(** *** The [random] module *)

Record rng : Type := Rng { draws : nat → Qc; cursor : nat }.

(** [random.random()]: the next draw, a number of [[0, 1)]. *)
Definition random (g : rng) : Qc * rng :=
  (draws g (cursor g), Rng (draws g) (S (cursor g))).

(** A generator is well-formed when every draw lies in [[0, 1)]. *)
Definition rng_ok (g : rng) : Prop := ∀ i, 0 ≤ draws g i ∧ draws g i < 1.

Definition Qc_floor (x : Qc) : Z := Qfloor (this x).

(** [random.choice(seq)]: raises [IndexError] on an empty sequence,
    otherwise the element at the index [floor(u * len(seq))], for the
    number [u] drawn. *)
Definition random_choice {A : Type} (seq : list A) (g : rng) : res (A * rng) :=
  match seq with
  | [] => Raise IndexError
  | _ =>
      let '(u, g') := random g in
      let i := Z.to_nat (Qc_floor (u * Qc_of_Z (Z.of_nat (length seq)))) in
      match seq !! i with
      | Some x => Ok (x, g')
      | None => Raise IndexError
      end
  end.

(** [itertools.accumulate(ws)]: the running sums of [ws]. *)
Fixpoint accumulate_from (acc : Qc) (ws : list Qc) : list Qc :=
  match ws with
  | [] => []
  | w :: ws' => (acc + w) :: accumulate_from (acc + w) ws'
  end.
Definition accumulate (ws : list Qc) : list Qc := accumulate_from 0 ws.

(** [bisect.bisect(a, x, 0, hi)] on a non-decreasing [a]: the number of
    leading elements, among the first [hi], that are [≤ x]. *)
Fixpoint bisect (a : list Qc) (x : Qc) (hi : nat) : nat :=
  match hi, a with
  | S hi', c :: a' => if decide (x < c) then O else S (bisect a' x hi')
  | _, _ => O
  end.

(** [random.choices(population, weights, k=1)[0]]: the element at the
    index where [u * total] falls among the running sums of the weights,
    for the number [u] drawn. *)
Definition random_choices {A : Type} (population : list A) (weights : list Qc)
    (g : rng) : res (A * rng) :=
  let cum_weights := accumulate weights in
  if decide (length cum_weights = length population) then
    match last cum_weights with
    | None => Raise IndexError
    | Some total =>
        if decide (total ≤ 0) then Raise ValueError
        else
          let '(u, g') := random g in
          let i := bisect cum_weights (u * total) (length population - 1) in
          match population !! i with
          | Some x => Ok (x, g')
          | None => Raise IndexError
          end
    end
  else Raise ValueError.

(** ** The program *)

(** [transition_model(corpus, page, damping_factor)] *)
Definition transition_model (corpus : gmap string (gset string))
    (page : string) (damping_factor : Qc) : res (gmap string Qc) :=
  let N := len corpus in
  links ← getitem corpus page;
  if decide (links ≠ ∅) then
    prob ← for_each (dict_keys corpus) (∅ : gmap string Qc) (λ prob p,
              v ← py_div (1 - damping_factor) N;
              Ok (<[p := v]> prob));
    for_each (elements links) prob (λ prob link,
      old ← getitem prob link;
      inc ← py_div damping_factor (set_len links);
      Ok (<[link := old + inc]> prob))
  else
    for_each (dict_keys corpus) (∅ : gmap string Qc) (λ prob p,
      v ← py_div 1 N;
      Ok (<[p := v]> prob)).

(** One iteration of the sampling loop: the loop state is the visit
    counters, the current page and the generator. *)
Definition sample_step (corpus : gmap string (gset string))
    (damping_factor : Qc) (st : gmap string Z * string * rng)
    : res (gmap string Z * string * rng) :=
  let '(counts, page, g) := st in
  c ← getitem counts page;
  let counts := <[page := (c + 1)%Z]> counts in
  probs ← transition_model corpus page damping_factor;
  '(page', g') ← random_choices (dict_keys probs) (dict_values probs) g;
  Ok (counts, page', g').

(** [sample_pagerank(corpus, damping_factor, n)], run from the generator
    state [g]; it answers the ranks and the generator state it leaves. *)
Definition sample_pagerank (corpus : gmap string (gset string))
    (damping_factor : Qc) (n : Z) (g : rng) : res (gmap string Qc * rng) :=
  counts ← for_each (dict_keys corpus) (∅ : gmap string Z) (λ counts page,
              Ok (<[page := 0%Z]> counts));
  let pages := dict_keys corpus in
  '(page, g) ← random_choice pages g;
  '(counts, _, g) ← repeat_n (Z.to_nat n) (counts, page, g)
                      (sample_step corpus damping_factor);
  pagerank ← for_each (map_to_list counts) (∅ : gmap string Qc)
                (λ pagerank '(page, count),
                   v ← py_div (Qc_of_Z count) (Qc_of_Z n);
                   Ok (<[page := v]> pagerank));
  Ok (pagerank, g).

(** The convergence threshold, the literal [0.001] of the source. *)
Definition tolerance : Qc := Q2Qc (1 # 1000).

(** The loop over [corpus] that rewrites the outbound set of every page
    without links, in the caller's dict. *)
Definition fix_dangling (corpus : gmap string (gset string))
    : res (gmap string (gset string)) :=
  for_each (dict_keys corpus) corpus (λ corpus page,
    links ← getitem corpus page;
    if decide (links = ∅)
    then Ok (<[page := list_to_set (dict_keys corpus)]> corpus)
    else Ok corpus).

(** The inner loop of a sweep, [for i in corpus: if page in corpus[i]:
    total += pagerank[i] / len(corpus[i])], from [total = 0]. *)
Definition sweep_total (corpus : gmap string (gset string))
    (pagerank : gmap string Qc) (page : string) : res Qc :=
  for_each (dict_keys corpus) (0 : Qc) (λ total i,
    links ← getitem corpus i;
    if decide (page ∈ links) then
      r ← getitem pagerank i;
      q ← py_div r (set_len links);
      Ok (total + q)
    else Ok total).

(** The body of the outer loop of a sweep, for the page [page]: the loop
    state is [new_ranks] and the flag [converge]. *)
Definition sweep_page (corpus : gmap string (gset string))
    (damping_factor N : Qc) (pagerank : gmap string Qc)
    (st : gmap string Qc * bool) (page : string)
    : res (gmap string Qc * bool) :=
  let '(new_ranks, converge) := st in
  total ← sweep_total corpus pagerank page;
  base ← py_div (1 - damping_factor) N;
  let new_rank := base + damping_factor * total in
  old ← getitem pagerank page;
  let converge :=
    if decide (tolerance < Qcabs (new_rank - old)) then false
    else converge in
  Ok (<[page := new_rank]> new_ranks, converge).

(** The body of the [while] loop up to [pagerank = new_ranks.copy()]:
    it answers [new_ranks] and the flag [converge]. *)
Definition sweep (corpus : gmap string (gset string)) (damping_factor N : Qc)
    (pagerank : gmap string Qc) : res (gmap string Qc * bool) :=
  for_each (dict_keys corpus) ((∅ : gmap string Qc), true)
    (sweep_page corpus damping_factor N pagerank).

(** [while not converge: ...], at most [fuel] sweeps. *)
Fixpoint while_not_converge (fuel : nat) (corpus : gmap string (gset string))
    (damping_factor N : Qc) (pagerank : gmap string Qc)
    : res (gmap string Qc) :=
  match fuel with
  | O => OutOfFuel
  | S fuel' =>
      '(new_ranks, converge) ← sweep corpus damping_factor N pagerank;
      if converge : bool then Ok new_ranks
      else while_not_converge fuel' corpus damping_factor N new_ranks
  end.

(** [iterate_pagerank(corpus, damping_factor)].  The function assigns into
    the dict it is given, so the model answers, with the ranks, the value
    the caller's [corpus] has when the call returns. *)
Definition iterate_pagerank (fuel : nat) (corpus : gmap string (gset string))
    (damping_factor : Qc)
    : res (gmap string (gset string) * gmap string Qc) :=
  let N := len corpus in
  pagerank ← for_each (dict_keys corpus) (∅ : gmap string Qc)
                (λ pagerank page,
                   v ← py_div 1 N;
                   Ok (<[page := v]> pagerank));
  corpus ← fix_dangling corpus;
  pagerank ← while_not_converge fuel corpus damping_factor N pagerank;
  Ok (corpus, pagerank).

(** ** Specification-level definitions

    These restate what the loops compute, without the loops: they do not
    depend on the order in which a dict is walked. *)

(** Every outbound reference is a page of the corpus. *)
Definition reference_invariant (corpus : gmap string (gset string)) : Prop :=
  ∀ p links, corpus !! p = Some links → links ⊆ dom corpus.

Global Instance reference_invariant_dec corpus :
  Decision (reference_invariant corpus).
Proof.
  refine (cast_if (decide (map_Forall (λ _ links, links ⊆ dom corpus) corpus)));
    unfold reference_invariant, map_Forall in *; eauto.
Defined.

(** The pages, as a list without duplicates. *)
Definition nodes {V : Type} (corpus : gmap string V) : list string :=
  elements (dom corpus).

Definition out_of (corpus : gmap string (gset string)) (q : string)
    : gset string :=
  default ∅ (corpus !! q).

Definition rank_of (r : gmap string Qc) (q : string) : Qc :=
  default 0 (r !! q).

(** The corpus with the outbound set of every page without links replaced
    by the set of all pages. *)
Definition normalize (corpus : gmap string (gset string))
    : gmap string (gset string) :=
  (λ links, if decide (links = ∅) then dom corpus else links) <$> corpus.

(** What [for p in l: m[p] = f(p)] leaves in [m]. *)
Definition tabulate {V : Type} (f : string → V) (l : list string)
    (m : gmap string V) : gmap string V :=
  foldl (λ m p, <[p := f p]> m) m l.

Definition sumQc (l : list Qc) : Qc := foldr Qcplus 0 l.

Definition sum_over {A : Type} (f : A → Qc) (l : list A) : Qc :=
  sumQc (f <$> l).

Definition Qc_max (x y : Qc) : Qc := if decide (x ≤ y) then y else x.

(** The weight [transition_model] gives to [q] when the surfer is on a
    page whose outbound set is [links]. *)
Definition transition_weight (N : Qc) (links : gset string) (d : Qc)
    (q : string) : Qc :=
  if decide (links = ∅) then 1 / N
  else (1 - d) / N + (if decide (q ∈ links) then d / set_len links else 0).

Definition transition_dist (corpus : gmap string (gset string))
    (links : gset string) (d : Qc) : gmap string Qc :=
  map_imap (λ q _, Some (transition_weight (len corpus) links d q)) corpus.

(** The pages [q] that link to [p]. *)
Definition incoming (corpus : gmap string (gset string)) (p : string)
    : list string :=
  filter (λ q, p ∈ out_of corpus q) (nodes corpus).

(** One application of the damped-rank recurrence at page [p]. *)
Definition next_rank (corpus : gmap string (gset string)) (d : Qc)
    (r : gmap string Qc) (p : string) : Qc :=
  (1 - d) / len corpus
  + d * sum_over (λ q, rank_of r q / set_len (out_of corpus q))
          (incoming corpus p).

Definition next_ranks (corpus : gmap string (gset string)) (d : Qc)
    (r : gmap string Qc) : gmap string Qc :=
  map_imap (λ p _, Some (next_rank corpus d r p)) corpus.

(** The rank vector after [k] sweeps over the corpus [corpus]. *)
Fixpoint rank_seq (corpus : gmap string (gset string)) (d : Qc) (k : nat)
    : gmap string Qc :=
  match k with
  | O => (λ _, 1 / len corpus) <$> corpus
  | S k' => next_ranks corpus d (rank_seq corpus d k')
  end.

(** The largest absolute difference between two rank vectors over the
    pages [ps] (zero when there is no page). *)
Definition max_change (ps : list string) (r r' : gmap string Qc) : Qc :=
  foldr (λ p m, Qc_max (Qcabs (rank_of r' p - rank_of r p)) m) 0 ps.

(** The change of sweep [k], the one that takes [rank_seq k] to
    [rank_seq (S k)]. *)
Definition sweep_change (corpus : gmap string (gset string)) (d : Qc)
    (k : nat) : Qc :=
  max_change (nodes corpus) (rank_seq corpus d k) (rank_seq corpus d (S k)).

(** The share of the rank of [q] that a sweep hands to [p]. *)
Definition link_weight (corpus : gmap string (gset string)) (q p : string)
    : Qc :=
  if decide (p ∈ out_of corpus q) then 1 / set_len (out_of corpus q) else 0.

(** The change of the rank of [p] in sweep [k], and the sum over the pages
    of the absolute changes of that sweep. *)
Definition rank_diff (corpus : gmap string (gset string)) (d : Qc) (k : nat)
    (p : string) : Qc :=
  rank_of (rank_seq corpus d (S k)) p - rank_of (rank_seq corpus d k) p.

Definition l1_change (corpus : gmap string (gset string)) (d : Qc) (k : nat)
    : Qc :=
  sum_over (λ p, Qcabs (rank_diff corpus d k p)) (nodes corpus).

(** The generator [k] draws later. *)
Definition advance (g : rng) (k : nat) : rng :=
  Rng (draws g) (cursor g + k).

(** The number of times [p] occurs in the list of visited pages. *)
Definition visits (visited : list string) (p : string) : Z :=
  Z.of_nat (length (filter (λ x, x = p) visited)).

(** [walk corpus d page g visited last g']: from the current page [page]
    and the generator [g], the sampling loop visits the pages [visited] in
    turn, each next page being drawn by [random.choices] from the
    transition model of the page before it, and is left with the current
    page [last] and the generator [g']. *)
Inductive walk (corpus : gmap string (gset string)) (d : Qc)
    : string → rng → list string → string → rng → Prop :=
  | walk_done page g : walk corpus d page g [] page g
  | walk_step page g probs page' g' visited last g'' :
      transition_model corpus page d = Ok probs →
      random_choices (dict_keys probs) (dict_values probs) g = Ok (page', g') →
      walk corpus d page' g' visited last g'' →
      walk corpus d page g (page :: visited) last g''.

(** The ranks the sampler computes from the pages it visited. *)
Definition sample_ranks (corpus : gmap string (gset string))
    (visited : list string) (n : Z) : gmap string Qc :=
  map_imap (λ p _, Some (Qc_of_Z (visits visited p) / Qc_of_Z n)) corpus.

(** Two generators that give the same next [k] draws. *)
Definition same_draws (k : nat) (g1 g2 : rng) : Prop :=
  ∀ i, (i < k)%nat → draws g1 (cursor g1 + i) = draws g2 (cursor g2 + i).

(** Two outcomes of a computation run from [g1] and from [g2] that differ
    in nothing but the generator they leave, [k] draws later. *)
Definition same_outcome {X : Type} (g1 g2 : rng) (k : nat)
    (r1 r2 : res (X * rng)) : Prop :=
  match r1, r2 with
  | Ok (x1, g1'), Ok (x2, g2') =>
      x1 = x2 ∧ g1' = advance g1 k ∧ g2' = advance g2 k
  | Raise e1, Raise e2 => e1 = e2
  | OutOfFuel, OutOfFuel => True
  | _, _ => False
  end.

(** ** The rest of the program: [crawl] and [main] *)

(** [s.endswith(suffix)] *)
Definition endswith (s suffix : string) : bool :=
  bool_decide (String.list_ascii_of_string suffix `suffix_of`
               String.list_ascii_of_string s).

(** [crawl(directory)].  The directory is given by the list of its
    entries, each with the text read from it, in the order of
    [os.listdir]; [findall contents] stands for
    [re.findall(r"<a\s+(?:[^>]*?)href=...", contents)], the link targets
    found in a page.  Failures of the file system are not modelled. *)
Definition crawl (findall : string → list string)
    (directory : list (string * string)) : res (gmap string (gset string)) :=
  pages ← for_each directory (∅ : gmap string (gset string))
             (λ pages '(filename, contents),
                if negb (endswith filename ".html") then Ok pages
                else
                  let links := findall contents in
                  Ok (<[filename := list_to_set links ∖ {[filename]}]> pages));
  for_each (dict_keys pages) pages (λ pages filename,
    links ← getitem pages filename;
    Ok (<[filename := filter (λ link, is_Some (pages !! link)) links]> pages)).

(** What the first loop of [crawl] leaves in [pages]. *)
Definition crawl_raw (findall : string → list string)
    (directory : list (string * string)) : gmap string (gset string) :=
  foldl (λ pages '(filename, contents),
           if endswith filename ".html"
           then <[filename := list_to_set (findall contents) ∖ {[filename]}]>
                  pages
           else pages)
    ∅ directory.

(** The graph [crawl] returns. *)
Definition crawl_graph (findall : string → list string)
    (directory : list (string * string)) : gmap string (gset string) :=
  (λ links, filter (λ link, link ∈ dom (crawl_raw findall directory)) links)
  <$> crawl_raw findall directory.

(** The constants [DAMPING] and [SAMPLES]. *)
Definition DAMPING : Qc := Q2Qc (85 # 100).
Definition SAMPLES : Z := 10000.

(** What [main] prints, line by line.  A rank line stands for
    [f"  {page}: {ranks[page]:.4f}"]: the number is kept as it is, its
    rounding to four decimals is not modelled. *)
Inductive line : Type :=
  | SamplingHeader (n : Z)
  | IterationHeader
  | RankLine (page : string) (rank : Qc).

(** How a run of [main] ends. *)
Inductive ending : Type :=
  | Returned
  | SysExit (message : string)
  | Uncaught (e : exn)
  | Unfinished.

(** The order of [sorted] on strings. *)
Definition str_le (a b : string) : Prop := String.leb a b = true.

Global Instance str_le_dec : RelDecision str_le.
Proof. intros a b. unfold str_le. apply _. Defined.

(** [sorted(ranks)]: the keys of the dict, in increasing order. *)
Definition py_sorted {V : Type} (ranks : gmap string V) : list string :=
  merge_sort str_le (dict_keys ranks).

(** [for page in pages: print(f"  {page}: {ranks[page]:.4f}")]: the lines
    printed, and the exception that stopped the loop if one did. *)
Fixpoint print_ranks (ranks : gmap string Qc) (pages : list string)
    : list line * option exn :=
  match pages with
  | [] => ([], None)
  | page :: pages' =>
      match ranks !! page with
      | None => ([], Some (KeyError page))
      | Some r =>
          let '(out, e) := print_ranks ranks pages' in
          (RankLine page r :: out, e)
      end
  end.

(** [main()], for the command line [argv], the file system [fs] (the
    entries of each directory), the generator state [g] and at most
    [fuel] sweeps of the solver: what is printed and how the run ends. *)
Definition main (findall : string → list string)
    (fs : string → list (string * string)) (argv : list string)
    (fuel : nat) (g : rng) : list line * ending :=
  match argv with
  | _ :: directory :: [] =>
      match crawl findall (fs directory) with
      | Raise e => ([], Uncaught e)
      | OutOfFuel => ([], Unfinished)
      | Ok corpus =>
          match sample_pagerank corpus DAMPING SAMPLES g with
          | Raise e => ([], Uncaught e)
          | OutOfFuel => ([], Unfinished)
          | Ok (ranks, _) =>
              match print_ranks ranks (py_sorted ranks) with
              | (out, Some e) => (SamplingHeader SAMPLES :: out, Uncaught e)
              | (out, None) =>
                  let out := SamplingHeader SAMPLES :: out in
                  match iterate_pagerank fuel corpus DAMPING with
                  | Raise e => (out, Uncaught e)
                  | OutOfFuel => (out, Unfinished)
                  | Ok (_, ranks) =>
                      match print_ranks ranks (py_sorted ranks) with
                      | (out', Some e) =>
                          (out ++ IterationHeader :: out', Uncaught e)
                      | (out', None) =>
                          (out ++ IterationHeader :: out', Returned)
                      end
                  end
              end
          end
      end
  | _ => ([], SysExit "Usage: python pagerank.py corpus")
  end.


(** ** The sampler over binary64

    [transition_model] and [sample_pagerank] once more, statement by
    statement, with a Python [float] as an IEEE 754 binary64 number
    (rounding to nearest, ties to even) and a Python [int] as an integer.
    The visit counters are integers in both models; the weights, the draws
    and the returned ranks are floats here. *)

Abbreviation float := PrimFloat.float.

(** [float(z)], for an [int] below [2^63] in absolute value. *)
Definition float_of_int (z : Z) : float :=
  if (0 <=? z)%Z then PrimFloat.of_uint63 (Uint63.of_Z z)
  else PrimFloat.opp (PrimFloat.of_uint63 (Uint63.of_Z (- z))).

(** The rational number that a finite float is; none for an infinity or a
    NaN. *)
Definition float_value (x : float) : option Q :=
  match FloatOps.Prim2SF x with
  | SpecFloat.S754_zero _ => Some 0%Q
  | SpecFloat.S754_finite s m e =>
      Some (inject_Z (if s then Z.neg m else Z.pos m) * Qpower 2 e)%Q
  | _ => None
  end.

(** [math.floor(x)], for a finite [x]. *)
Definition float_floor (x : float) : Z :=
  match float_value x with
  | Some q => Qfloor q
  | None => 0%Z
  end.

(** [x / y] on floats. *)
Definition py_div64 (x y : float) : res float :=
  if PrimFloat.eqb y (float_of_int 0) then Raise ZeroDivisionError
  else Ok (PrimFloat.div x y).

(** The generator: its draws are floats of [[0, 1)]. *)
Record rng64 : Type := Rng64 { draws64 : nat → float; cursor64 : nat }.

(** [random.random()] *)
Definition random64 (g : rng64) : float * rng64 :=
  (draws64 g (cursor64 g), Rng64 (draws64 g) (S (cursor64 g))).

(** [random.choice(seq)] *)
Definition random_choice64 {A : Type} (seq : list A) (g : rng64)
    : res (A * rng64) :=
  match seq with
  | [] => Raise IndexError
  | _ =>
      let '(u, g') := random64 g in
      let i := Z.to_nat (float_floor
                 (PrimFloat.mul u (float_of_int (Z.of_nat (length seq))))) in
      match seq !! i with
      | Some x => Ok (x, g')
      | None => Raise IndexError
      end
  end.

(** [itertools.accumulate(ws)]: the first weight, then the running sums. *)
Fixpoint accumulate_from64 (acc : float) (ws : list float) : list float :=
  match ws with
  | [] => []
  | w :: ws' => PrimFloat.add acc w :: accumulate_from64 (PrimFloat.add acc w) ws'
  end.
Definition accumulate64 (ws : list float) : list float :=
  match ws with
  | [] => []
  | w :: ws' => w :: accumulate_from64 w ws'
  end.

(** [bisect.bisect(a, x, 0, hi)] *)
Fixpoint bisect64 (a : list float) (x : float) (hi : nat) : nat :=
  match hi, a with
  | S hi', c :: a' => if PrimFloat.ltb x c then O else S (bisect64 a' x hi')
  | _, _ => O
  end.

(** [random.choices(population, weights, k=1)[0]]: the total of the
    weights is [cum_weights[-1] + 0.0], and a total that is not positive,
    or not finite, is a [ValueError]. *)
Definition random_choices64 {A : Type} (population : list A)
    (weights : list float) (g : rng64) : res (A * rng64) :=
  let cum_weights := accumulate64 weights in
  if decide (length cum_weights = length population) then
    match last cum_weights with
    | None => Raise IndexError
    | Some c =>
        let total := PrimFloat.add c (float_of_int 0) in
        if PrimFloat.leb total (float_of_int 0) then Raise ValueError
        else
          match float_value total with
          | None => Raise ValueError
          | Some _ =>
              let '(u, g') := random64 g in
              let i := bisect64 cum_weights (PrimFloat.mul u total)
                         (length population - 1) in
              match population !! i with
              | Some x => Ok (x, g')
              | None => Raise IndexError
              end
          end
    end
  else Raise ValueError.

(** [transition_model(corpus, page, damping_factor)] *)
Definition transition_model64 (corpus : gmap string (gset string))
    (page : string) (damping_factor : float) : res (gmap string float) :=
  let N := float_of_int (Z.of_nat (size corpus)) in
  links ← getitem corpus page;
  if decide (links ≠ ∅) then
    prob ← for_each (dict_keys corpus) (∅ : gmap string float) (λ prob p,
              v ← py_div64 (PrimFloat.sub (float_of_int 1) damping_factor) N;
              Ok (<[p := v]> prob));
    for_each (elements links) prob (λ prob link,
      old ← getitem prob link;
      inc ← py_div64 damping_factor (float_of_int (Z.of_nat (size links)));
      Ok (<[link := PrimFloat.add old inc]> prob))
  else
    for_each (dict_keys corpus) (∅ : gmap string float) (λ prob p,
      v ← py_div64 (float_of_int 1) N;
      Ok (<[p := v]> prob)).

(** One iteration of the sampling loop. *)
Definition sample_step64 (corpus : gmap string (gset string))
    (damping_factor : float) (st : gmap string Z * string * rng64)
    : res (gmap string Z * string * rng64) :=
  let '(counts, page, g) := st in
  c ← getitem counts page;
  let counts := <[page := (c + 1)%Z]> counts in
  probs ← transition_model64 corpus page damping_factor;
  '(page', g') ← random_choices64 (dict_keys probs) (dict_values probs) g;
  Ok (counts, page', g').

(** [sample_pagerank(corpus, damping_factor, n)]; the last statement
    divides the integer counters by the integer [n], which rounds the
    quotient once. *)
Definition sample_pagerank64 (corpus : gmap string (gset string))
    (damping_factor : float) (n : Z) (g : rng64)
    : res (gmap string float * rng64) :=
  counts ← for_each (dict_keys corpus) (∅ : gmap string Z) (λ counts page,
              Ok (<[page := 0%Z]> counts));
  let pages := dict_keys corpus in
  '(page, g) ← random_choice64 pages g;
  '(counts, _, g) ← repeat_n (Z.to_nat n) (counts, page, g)
                      (sample_step64 corpus damping_factor);
  pagerank ← for_each (map_to_list counts) (∅ : gmap string float)
                (λ pagerank '(page, count),
                   v ← py_div64 (float_of_int count) (float_of_int n);
                   Ok (<[page := v]> pagerank));
  Ok (pagerank, g).

(** The floats of [l] added up from left to right, every addition
    rounded. *)
Definition float_sum (l : list float) : float :=
  foldl PrimFloat.add (float_of_int 0) l.

(** The sum of the numbers that the floats of [l] are, without rounding. *)
Definition exact_sum (l : list float) : option Q :=
  foldr (λ x acc, v ← float_value x; s ← acc; Some (v + s)%Q) (Some 0%Q) l.

(** [a / b] on two ints: the quotient, rounded once. *)
Definition int_div64 (a b : Z) : float :=
  PrimFloat.div (float_of_int a) (float_of_int b).

(** ** Example inputs *)

Definition g_ab : gmap string (gset string) :=
  <["a" := {["b"]}]> (<["b" := ∅]> ∅).

Definition d85 : Qc := Q2Qc (85 # 100).

Definition g_cycle : gmap string (gset string) :=
  <["a" := {["b"]}]> (<["b" := {["a"]}]> (<["c" := {["a"]}]> ∅)).

Definition g0 : rng := Rng (λ _, 0) 0.

(** A ring of four pages, and the generator over binary64 whose draws are
    all [0.0]. *)
Definition g_ring : gmap string (gset string) :=
  {[ "a" := {[ "b" ]}; "b" := {[ "c" ]}; "c" := {[ "d" ]}; "d" := {[ "a" ]} ]}.

Definition g64 : rng64 := Rng64 (λ _, float_of_int 0) 0.

(** ** The runtime model: loops and dicts *)

Example tm_ab_a :
  transition_model g_ab "a" d85
  = Ok (<["a" := Q2Qc (3 # 40)]> (<["b" := Q2Qc (37 # 40)]> ∅)).
Proof. vm_compute. qc_canon. Qed.


Section runtime.
Context {V : Type}.
Implicit Types (m : gmap string V) (l : list string).

Lemma dict_keys_NoDup m : NoDup (dict_keys m).
Proof. apply NoDup_fst_map_to_list. Qed.

Lemma elem_of_dict_keys m k : k ∈ dict_keys m ↔ is_Some (m !! k).
Proof.
  unfold dict_keys. rewrite list_elem_of_fmap. split.
  - intros [[k' v] [-> Hin]]. apply elem_of_map_to_list in Hin. eauto.
  - intros [v Hv]. exists (k, v). split; [done|]. by apply elem_of_map_to_list.
Qed.

Lemma dict_keys_dom m : list_to_set (dict_keys m) = dom m.
Proof.
  apply set_eq. intros k.
  by rewrite elem_of_list_to_set, elem_of_dict_keys, elem_of_dom.
Qed.

Lemma dict_keys_nodes m : dict_keys m ≡ₚ nodes m.
Proof.
  apply NoDup_Permutation.
  - apply dict_keys_NoDup.
  - apply NoDup_elements.
  - intros k. unfold nodes.
    by rewrite elem_of_elements, elem_of_dict_keys, elem_of_dom.
Qed.

Lemma elem_of_nodes m k : k ∈ nodes m ↔ is_Some (m !! k).
Proof. unfold nodes. by rewrite elem_of_elements, elem_of_dom. Qed.

Lemma length_dict_keys m : length (dict_keys m) = size m.
Proof. unfold dict_keys. by rewrite length_fmap, length_map_to_list. Qed.

Lemma length_nodes m : length (nodes m) = size m.
Proof. by rewrite <- (dict_keys_nodes m), length_dict_keys. Qed.

Lemma dict_keys_empty : dict_keys (∅ : gmap string V) = [].
Proof. unfold dict_keys. by rewrite map_to_list_empty. Qed.

Lemma dict_keys_nil m : dict_keys m = [] → m = ∅.
Proof.
  intros H. apply map_size_empty_inv. by rewrite <- length_dict_keys, H.
Qed.

Lemma lookup_tabulate f l m k :
  tabulate f l m !! k = if decide (k ∈ l) then Some (f k) else m !! k.
Proof.
  revert m. induction l as [|x l IH]; intros m.
  - case_decide as H; [by apply not_elem_of_nil in H|done].
  - unfold tabulate in *. simpl. rewrite IH.
    destruct (decide (k ∈ l)) as [Hl|Hl].
    + by rewrite decide_True by (by right).
    + destruct (decide (k = x)) as [->|Hne].
      * rewrite decide_True by left. apply lookup_insert_eq.
      * rewrite decide_False by (by rewrite elem_of_cons; intros [?|?]).
        by apply lookup_insert_ne.
Qed.

Lemma for_each_tabulate (f : string → V) (body : gmap string V → string → res (gmap string V)) l m :
  (∀ m' p, p ∈ l → body m' p = Ok (<[p := f p]> m')) →
  for_each l m body = Ok (tabulate f l m).
Proof.
  revert m. induction l as [|x l IH]; intros m Hbody; [done|].
  simpl. rewrite Hbody by left. simpl. apply IH.
  intros m' p Hp. apply Hbody. by right.
Qed.

End runtime.

Lemma tabulate_dict_keys {V W : Type} (f : string → V) (c : gmap string W) :
  tabulate f (dict_keys c) ∅ = map_imap (λ p _, Some (f p)) c.
Proof.
  apply map_eq. intros k. rewrite lookup_tabulate, map_lookup_imap.
  destruct (decide (k ∈ dict_keys c)) as [Hk|Hk].
  - apply elem_of_dict_keys in Hk as [w ->]. done.
  - rewrite lookup_empty. destruct (c !! k) as [w|] eqn:E; [|done].
    destruct Hk. apply elem_of_dict_keys; eauto.
Qed.

(** ** Finite sums of rationals *)

Lemma Qc_of_nat_S n : Qc_of_nat (S n) = 1 + Qc_of_nat n.
Proof. by rewrite Nat2Z.inj_succ, <- Z.add_1_l, Z2Qc_inj_add, Z2Qc_inj_1. Qed.

Lemma Qc_of_nat_nonneg n : 0 ≤ Qc_of_nat n.
Proof. rewrite <- Z2Qc_inj_0. apply (proj1 (Z2Qc_inj_le 0 (Z.of_nat n))). lia. Qed.

Lemma Qc_of_nat_pos n : (0 < n)%nat → 0 < Qc_of_nat n.
Proof.
  intros. rewrite <- Z2Qc_inj_0. apply (proj1 (Z2Qc_inj_lt 0 (Z.of_nat n))). lia.
Qed.

Lemma Qc_of_nat_ne_0 n : n ≠ O → Qc_of_nat n ≠ 0.
Proof.
  intros Hn H. rewrite <- Z2Qc_inj_0 in H. apply Z2Qc_inj in H. lia.
Qed.

Section sums.
Context {A : Type}.
Implicit Types (f g : A → Qc) (l : list A).

Lemma sum_over_cons f x l : sum_over f (x :: l) = f x + sum_over f l.
Proof. done. Qed.

Lemma sum_over_app f l1 l2 :
  sum_over f (l1 ++ l2) = sum_over f l1 + sum_over f l2.
Proof.
  induction l1 as [|x l1 IH]; simpl.
  - unfold sum_over at 2. simpl. ring.
  - rewrite !sum_over_cons, IH. ring.
Qed.

Lemma sum_over_ext f g l :
  (∀ x, x ∈ l → f x = g x) → sum_over f l = sum_over g l.
Proof.
  induction l as [|x l IH]; intros H; [done|].
  rewrite !sum_over_cons, H, IH; [done| |left].
  intros y Hy. apply H. by right.
Qed.

Lemma sum_over_perm f l1 l2 : l1 ≡ₚ l2 → sum_over f l1 = sum_over f l2.
Proof.
  induction 1 as [|x l1 l2 _ IH|x y l|l1 l2 l3 _ IH1 _ IH2];
    rewrite ?sum_over_cons; [done| by rewrite IH | ring | congruence].
Qed.

Lemma sum_over_plus f g l :
  sum_over (λ x, f x + g x) l = sum_over f l + sum_over g l.
Proof.
  induction l as [|x l IH]; [unfold sum_over; simpl; ring|].
  rewrite !sum_over_cons, IH. ring.
Qed.

Lemma sum_over_scale c f l : sum_over (λ x, c * f x) l = c * sum_over f l.
Proof.
  induction l as [|x l IH]; [unfold sum_over; simpl; ring|].
  rewrite !sum_over_cons, IH. ring.
Qed.

Lemma sum_over_const c l : sum_over (λ _, c) l = Qc_of_nat (length l) * c.
Proof.
  induction l as [|x l IH].
  - change (0 = Qc_of_Z 0 * c). rewrite Z2Qc_inj_0. ring.
  - rewrite sum_over_cons, IH. simpl length. rewrite Qc_of_nat_S. ring.
Qed.

Lemma sum_over_zero l : sum_over (λ _ : A, 0) l = 0.
Proof. rewrite sum_over_const. ring. Qed.

Lemma sum_over_le f g l :
  (∀ x, x ∈ l → f x ≤ g x) → sum_over f l ≤ sum_over g l.
Proof.
  induction l as [|x l IH]; intros H; [done|].
  rewrite !sum_over_cons. apply Qcplus_le_compat; [apply H; left|].
  apply IH. intros y Hy. apply H. by right.
Qed.

Lemma sum_over_nonneg f l : (∀ x, x ∈ l → 0 ≤ f x) → 0 ≤ sum_over f l.
Proof. intros H. rewrite <- (sum_over_zero l). by apply sum_over_le. Qed.

Lemma sum_over_abs f l : Qcabs (sum_over f l) ≤ sum_over (λ x, Qcabs (f x)) l.
Proof.
  induction l as [|x l IH]; [done|].
  rewrite !sum_over_cons.
  etrans; [apply Qcabs_triangle|]. by apply Qcplus_le_compat.
Qed.

Lemma sum_over_filter (P : A → Prop) `{!∀ x, Decision (P x)} f l :
  sum_over f (filter P l) = sum_over (λ x, if decide (P x) then f x else 0) l.
Proof.
  induction l as [|x l IH]; [done|].
  rewrite filter_cons, sum_over_cons. destruct (decide (P x)).
  - by rewrite sum_over_cons, IH.
  - rewrite IH. ring.
Qed.

Lemma sum_over_elem_le f l x : (∀ y, y ∈ l → 0 ≤ f y) → x ∈ l → f x ≤ sum_over f l.
Proof.
  induction l as [|y l IH]; intros Hpos Hx; [by apply not_elem_of_nil in Hx|].
  rewrite sum_over_cons. apply elem_of_cons in Hx as [->|Hx].
  - assert (0 ≤ sum_over f l).
    { apply sum_over_nonneg. intros z Hz. apply Hpos. by right. }
    qc_lra.
  - assert (0 ≤ f y) by (apply Hpos; left).
    assert (f x ≤ sum_over f l).
    { apply IH; [|done]. intros z Hz. apply Hpos. by right. }
    qc_lra.
Qed.
End sums.

Lemma sum_over_swap {A B : Type} (f : A → B → Qc) (l1 : list A) (l2 : list B) :
  sum_over (λ x, sum_over (λ y, f x y) l2) l1
  = sum_over (λ y, sum_over (λ x, f x y) l1) l2.
Proof.
  induction l1 as [|x l1 IH].
  - by rewrite sum_over_zero.
  - rewrite sum_over_cons, IH, <- sum_over_plus. done.
Qed.

Lemma sum_over_fmap {A B : Type} (h : A → B) (f : B → Qc) (l : list A) :
  sum_over f (h <$> l) = sum_over (f ∘ h) l.
Proof. unfold sum_over. by rewrite <- list_fmap_compose. Qed.

(** ** [transition_model] *)

Lemma py_div_ok x y : y ≠ 0 → py_div x y = Ok (x / y).
Proof. intros. unfold py_div. by rewrite decide_False. Qed.

Lemma getitem_ok {V : Type} (m : gmap string V) k v :
  m !! k = Some v → getitem m k = Ok v.
Proof. intros H. unfold getitem. by rewrite H. Qed.

Lemma len_ne_0 {V : Type} (m : gmap string V) k :
  is_Some (m !! k) → len m ≠ 0.
Proof.
  intros [v Hk]. apply Qc_of_nat_ne_0. intros Hsz.
  apply map_size_empty_inv in Hsz. by rewrite Hsz, lookup_empty in Hk.
Qed.

Lemma set_len_ne_0 (s : gset string) : s ≠ ∅ → set_len s ≠ 0.
Proof.
  intros Hs. apply Qc_of_nat_ne_0. intros Hsz. by apply size_empty_inv, leibniz_equiv in Hsz.
Qed.

(** [for link in links: prob[link] += inc] *)
Lemma for_each_add_links (l : list string) (inc : Qc) (c : res Qc)
    (prob : gmap string Qc) :
  c = Ok inc →
  NoDup l →
  (∀ x, x ∈ l → is_Some (prob !! x)) →
  for_each l prob (λ prob link,
    old ← getitem prob link; v ← c; Ok (<[link := old + v]> prob))
  = Ok (map_imap (λ q w, Some (if decide (q ∈ l) then w + inc else w)) prob).
Proof.
  intros ->. revert prob. induction l as [|x l IH]; intros prob Hnd Hin.
  - simpl. f_equal. apply map_eq. intros q. rewrite map_lookup_imap.
    by destruct (prob !! q).
  - apply NoDup_cons in Hnd as [Hx Hnd].
    destruct (Hin x) as [old Hold]; [left|].
    simpl. rewrite (getitem_ok _ _ _ Hold). simpl. rewrite IH; [|done|].
    + f_equal. apply map_eq. intros q. rewrite !map_lookup_imap.
      destruct (decide (q = x)) as [->|Hne].
      * rewrite lookup_insert_eq, Hold. simpl.
        rewrite decide_False by done. by rewrite decide_True by left.
      * rewrite lookup_insert_ne by done.
        destruct (prob !! q); simpl; [|done]. f_equal.
        destruct (decide (q ∈ l)).
        -- by rewrite decide_True by (by right).
        -- by rewrite decide_False by (rewrite elem_of_cons; intros [?|?]; done).
    + intros y Hy. destruct (decide (y = x)) as [->|Hne].
      * rewrite lookup_insert_eq. eauto.
      * rewrite lookup_insert_ne by done. apply Hin. by right.
Qed.

(** A link to a page that is not a key of the corpus makes
    [prob[link] += ...] raise. *)
Example transition_model_unknown_link :
  transition_model {["a" := {["b"]}]} "a" d85 = Raise (KeyError "b").
Proof. reflexivity. Qed.

Lemma transition_model_ok (corpus : gmap string (gset string)) page links d :
  corpus !! page = Some links →
  links ⊆ dom corpus →
  transition_model corpus page d = Ok (transition_dist corpus links d).
Proof.
  intros Hpage Hsub. unfold transition_model.
  rewrite (getitem_ok _ _ _ Hpage). simpl.
  assert (len corpus ≠ 0) as HN by (eapply len_ne_0; eauto).
  destruct (decide (links ≠ ∅)) as [Hne|He].
  - rewrite (for_each_tabulate (λ _, (1 - d) / len corpus)).
    2:{ intros m' p _. by rewrite py_div_ok. }
    simpl. rewrite tabulate_dict_keys.
    rewrite (for_each_add_links _ (d / set_len links)).
    + f_equal. apply map_eq. intros q. unfold transition_dist.
      rewrite !map_lookup_imap. destruct (corpus !! q); simpl; [|done].
      f_equal. unfold transition_weight.
      rewrite (decide_False (P := links = ∅)) by done.
      destruct (decide (q ∈ links)).
      * by rewrite decide_True by (by apply elem_of_elements).
      * rewrite decide_False by (by rewrite elem_of_elements). ring.
    + apply py_div_ok. by apply set_len_ne_0.
    + apply NoDup_elements.
    + intros x Hx. apply elem_of_elements, Hsub, elem_of_dom in Hx as [v Hv].
      rewrite map_lookup_imap, Hv. simpl. eauto.
  - assert (links = ∅) as -> by (destruct (decide (links = ∅)); [done|by destruct He]).
    rewrite (for_each_tabulate (λ _, 1 / len corpus)).
    2:{ intros m' p _. by rewrite py_div_ok. }
    rewrite tabulate_dict_keys. done.
Qed.

Lemma sum_over_indicator (S P : gset string) (c : Qc) :
  sum_over (λ q, if decide (q ∈ S) then c else 0) (elements P)
  = Qc_of_nat (size (S ∩ P)) * c.
Proof.
  rewrite <- (sum_over_filter (λ q, q ∈ S) (λ _, c)).
  rewrite (sum_over_perm _ _ (elements (S ∩ P))).
  - by rewrite sum_over_const.
  - apply NoDup_Permutation.
    + apply NoDup_filter, NoDup_elements.
    + apply NoDup_elements.
    + intros q. rewrite list_elem_of_filter, !elem_of_elements. set_solver.
Qed.

Lemma sumQc_dict_values (m : gmap string Qc) :
  sumQc (dict_values m) = sum_over (rank_of m) (nodes m).
Proof.
  rewrite <- (sum_over_perm _ _ _ (dict_keys_nodes m)).
  unfold dict_values, dict_keys. rewrite sum_over_fmap.
  unfold sum_over. f_equal. apply list_fmap_ext.
  intros i [k v] Hi. apply list_elem_of_lookup_2, elem_of_map_to_list in Hi.
  simpl. unfold rank_of. by rewrite Hi.
Qed.

Lemma lookup_transition_dist (corpus : gmap string (gset string)) links d q :
  transition_dist corpus links d !! q
  = (λ _, transition_weight (len corpus) links d q) <$> corpus !! q.
Proof. unfold transition_dist. rewrite map_lookup_imap. by destruct (corpus !! q). Qed.

Lemma dom_transition_dist (corpus : gmap string (gset string)) links d :
  dom (transition_dist corpus links d) = dom corpus.
Proof.
  apply set_eq. intros q. rewrite !elem_of_dom, lookup_transition_dist.
  by rewrite fmap_is_Some.
Qed.

Lemma transition_weight_nonneg N links d q :
  0 < N → 0 ≤ d → d ≤ 1 → 0 ≤ transition_weight N links d q.
Proof.
  intros HN Hd0 Hd1. unfold transition_weight.
  assert (0 ≤ / N) as HiN by (by apply Qclt_le_weak, Qcinv_pos).
  destruct (decide (links = ∅)) as [->|Hne].
  - unfold Qcdiv. by rewrite Qcmult_1_l.
  - apply Qcplus_nonneg_nonneg.
    + unfold Qcdiv. apply Qcmult_nonneg_nonneg; [qc_lra|done].
    + destruct (decide (q ∈ links)); [|done].
      unfold Qcdiv. apply Qcmult_nonneg_nonneg; [done|].
      apply Qclt_le_weak, Qcinv_pos, Qc_of_nat_pos.
      destruct (size links) eqn:E; [|lia].
      by apply size_empty_inv, leibniz_equiv in E.
Qed.

Lemma sum_transition_weight (corpus : gmap string (gset string)) links d :
  corpus ≠ ∅ →
  links ⊆ dom corpus →
  sum_over (transition_weight (len corpus) links d) (nodes corpus) = 1.
Proof.
  intros Hne Hsub.
  assert (len corpus ≠ 0) as HN.
  { apply Qc_of_nat_ne_0. intros E. by apply map_size_empty_inv in E. }
  unfold transition_weight. destruct (decide (links = ∅)) as [->|Hl].
  - rewrite sum_over_const, length_nodes. unfold len in *. by field.
  - rewrite sum_over_plus, sum_over_const, length_nodes.
    unfold nodes. rewrite sum_over_indicator.
    replace (links ∩ dom corpus) with links by set_solver.
    apply set_len_ne_0 in Hl. unfold len, set_len in *. by field.
Qed.

(** C2. On a graph whose references stay inside the node set, and for a
    page [page] of it with outbound set [links], [transition_model] returns
    a dict whose keys are exactly the pages; when [links] is empty every
    page gets [1/N]; otherwise every page gets [(1 - d)/N], and the pages
    of [links] get [d/k] on top of it, [k] being the size of [links].
    This holds for every damping factor, those of [[0,1]] included. *)
Theorem transition_model_weights
    (corpus : gmap string (gset string)) (page : string)
    (links : gset string) (d : Qc) :
  reference_invariant corpus →
  corpus !! page = Some links →
  ∃ prob : gmap string Qc,
    transition_model corpus page d = Ok prob
    ∧ dom prob = dom corpus
    ∧ ∀ q, q ∈ dom corpus →
        prob !! q
        = Some (if decide (links = ∅) then 1 / Qc_of_nat (size corpus)
                else (1 - d) / Qc_of_nat (size corpus)
                     + (if decide (q ∈ links)
                        then d / Qc_of_nat (size links) else 0)).
Proof.
  intros Hinv Hpage. exists (transition_dist corpus links d).
  split; [|split].
  - apply transition_model_ok; [done|]. by eapply Hinv.
  - apply dom_transition_dist.
  - intros q [v Hq]%elem_of_dom. by rewrite lookup_transition_dist, Hq.
Qed.

Lemma transition_model_weights_witness :
  ∃ prob : gmap string Qc,
    transition_model g_ab "a" d85 = Ok prob
    ∧ dom prob = dom g_ab
    ∧ ∀ q, q ∈ dom g_ab →
        prob !! q
        = Some (if decide (({["b"]} : gset string) = ∅)
                then 1 / Qc_of_nat (size g_ab)
                else (1 - d85) / Qc_of_nat (size g_ab)
                     + (if decide (q ∈ ({["b"]} : gset string))
                        then d85 / Qc_of_nat (size ({["b"]} : gset string))
                        else 0)).
Proof.
  apply (transition_model_weights g_ab "a" {["b"]} d85).
  - compute_done.
  - reflexivity.
Defined.

(** C5. Under the same conditions and for a damping factor of [[0,1]], the
    values of the dict that [transition_model] returns add up to exactly
    [1] and none of them is negative. *)
Theorem transition_model_is_distribution
    (corpus : gmap string (gset string)) (page : string) (d : Qc) :
  reference_invariant corpus →
  page ∈ dom corpus →
  0 ≤ d → d ≤ 1 →
  ∃ prob : gmap string Qc,
    transition_model corpus page d = Ok prob
    ∧ sumQc (dict_values prob) = 1
    ∧ ∀ q w, prob !! q = Some w → 0 ≤ w.
Proof.
  intros Hinv [links Hpage]%elem_of_dom Hd0 Hd1.
  exists (transition_dist corpus links d).
  assert (links ⊆ dom corpus) as Hsub by (by eapply Hinv).
  assert (corpus ≠ ∅) as Hne by (intros ->; by rewrite lookup_empty in Hpage).
  split; [|split].
  - by apply transition_model_ok.
  - rewrite sumQc_dict_values.
    unfold nodes. rewrite dom_transition_dist. fold (nodes corpus).
    rewrite <- (sum_transition_weight corpus links d Hne Hsub).
    apply sum_over_ext. intros q [v Hq]%elem_of_nodes.
    unfold rank_of. by rewrite lookup_transition_dist, Hq.
  - intros q w. rewrite lookup_transition_dist.
    destruct (corpus !! q); [|done]. intros [= <-].
    apply transition_weight_nonneg; [|done..].
    apply Qc_of_nat_pos. destruct (size corpus) eqn:E; [|lia].
    by apply map_size_empty_inv in E.
Qed.

Lemma transition_model_is_distribution_witness :
  ∃ prob : gmap string Qc,
    transition_model g_ab "b" d85 = Ok prob
    ∧ sumQc (dict_values prob) = 1
    ∧ ∀ q w, prob !! q = Some w → 0 ≤ w.
Proof.
  apply (transition_model_is_distribution g_ab "b" d85).
  - compute_done.
  - compute_done.
  - vm_compute. discriminate.
  - vm_compute. discriminate.
Defined.

(** ** [iterate_pagerank]: the loops *)

Lemma lookup_normalize (corpus : gmap string (gset string)) p :
  normalize corpus !! p
  = (λ links, if decide (links = ∅) then dom corpus else links) <$> corpus !! p.
Proof. unfold normalize. by rewrite lookup_fmap. Qed.

Lemma dom_normalize (corpus : gmap string (gset string)) :
  dom (normalize corpus) = dom corpus.
Proof. unfold normalize. by rewrite dom_fmap_L. Qed.

Lemma len_normalize (corpus : gmap string (gset string)) :
  len (normalize corpus) = len corpus.
Proof. unfold len, normalize. by rewrite map_size_fmap. Qed.

Lemma for_each_fix_dangling (l : list string) (D : gset string)
    (c : gmap string (gset string)) :
  dom c = D →
  (∀ x, x ∈ l → x ∈ D) →
  for_each l c (λ corpus page,
    links ← getitem corpus page;
    if decide (links = ∅)
    then Ok (<[page := list_to_set (dict_keys corpus)]> corpus)
    else Ok corpus)
  = Ok (map_imap (λ p links,
          Some (if decide (p ∈ l ∧ links = ∅) then D else links)) c).
Proof.
  revert c. induction l as [|x l IH]; intros c Hdom Hin.
  - simpl. f_equal. apply map_eq. intros q. rewrite map_lookup_imap.
    by destruct (c !! q) as [v|].
  - assert (x ∈ dom c) as [links Hx]%elem_of_dom by (rewrite Hdom; apply Hin; left).
    cbn [for_each]. rewrite (getitem_ok _ _ _ Hx). cbn [mbind res_bind].
    assert (∀ y, y ∈ l → y ∈ D) as Hin' by (intros y Hy; apply Hin; by right).
    destruct (decide (links = ∅)) as [->|Hne]; cbn [mbind res_bind].
    + rewrite dict_keys_dom, Hdom. rewrite IH; [|by rewrite dom_insert_L; set_solver|done].
      f_equal. apply map_eq. intros q. rewrite !map_lookup_imap.
      destruct (decide (q = x)) as [->|Hq].
      * rewrite lookup_insert_eq, Hx. simpl. f_equal.
        rewrite (decide_True (P := x ∈ x :: l ∧ _)) by (split; [left|done]).
        by destruct (decide (x ∈ l ∧ D = ∅)).
      * rewrite lookup_insert_ne by done. destruct (c !! q) as [v|]; [|done].
        simpl. f_equal. apply decide_ext. rewrite elem_of_cons. naive_solver.
    + rewrite IH by done. f_equal. apply map_eq. intros q.
      rewrite !map_lookup_imap. destruct (c !! q) as [v|] eqn:Hq; [|done].
      simpl. f_equal. destruct (decide (q = x)) as [->|Hqx].
      * assert (v = links) as -> by congruence.
        rewrite !decide_False; [done|naive_solver..].
      * apply decide_ext. rewrite elem_of_cons. naive_solver.
Qed.

Lemma fix_dangling_ok (corpus : gmap string (gset string)) :
  fix_dangling corpus = Ok (normalize corpus).
Proof.
  unfold fix_dangling. rewrite (for_each_fix_dangling _ (dom corpus)); [|done|].
  - f_equal. apply map_eq. intros q. rewrite map_lookup_imap, lookup_normalize.
    destruct (corpus !! q) as [v|] eqn:Hq; [|done]. simpl. f_equal.
    apply decide_ext. rewrite elem_of_dict_keys. naive_solver.
  - intros x. rewrite elem_of_dict_keys, elem_of_dom. done.
Qed.

Lemma Qc_max_le x y t : Qc_max x y ≤ t ↔ x ≤ t ∧ y ≤ t.
Proof.
  unfold Qc_max. destruct (decide (x ≤ y)) as [H|H].
  - split; [|by intros [_ ?]]. intros. split; [by etrans|done].
  - apply Qcnot_le_lt in H. split; [|by intros [? _]].
    intros. split; [done|]. etrans; [by apply Qclt_le_weak|done].
Qed.

Lemma max_change_le ps r r' t :
  max_change ps r r' ≤ t
  ↔ 0 ≤ t ∧ ∀ p, p ∈ ps → Qcabs (rank_of r' p - rank_of r p) ≤ t.
Proof.
  induction ps as [|p ps IH].
  - split; [|by intros [? _]]. intros. split; [done|].
    by intros p []%not_elem_of_nil.
  - cbn [max_change foldr]. fold (max_change ps r r').
    rewrite Qc_max_le, IH. split.
    + intros (Hp & Ht & Hps). split; [done|].
      intros q [->|Hq]%elem_of_cons; auto.
    + intros (Ht & H). split; [apply H; left|]. split; [done|].
      intros q Hq. apply H. by right.
Qed.

Lemma max_change_perm ps ps' r r' t :
  ps ≡ₚ ps' → max_change ps r r' ≤ t ↔ max_change ps' r r' ≤ t.
Proof.
  intros Hp. rewrite !max_change_le.
  by setoid_rewrite Hp.
Qed.

Lemma tolerance_pos : 0 < tolerance.
Proof. done. Qed.

Section sweep.
Context (corpus : gmap string (gset string)) (d : Qc) (r : gmap string Qc).
Hypothesis Hr : ∀ p, is_Some (corpus !! p) → is_Some (r !! p).

(** The share of the rank of [i] that flows to [p]. *)
Let contrib (p i : string) : Qc :=
  if decide (p ∈ out_of corpus i)
  then rank_of r i / set_len (out_of corpus i) else 0.

Lemma for_each_total (p : string) (l : list string) (acc : Qc) :
  (∀ i, i ∈ l → is_Some (corpus !! i)) →
  for_each l acc (λ total i,
    links ← getitem corpus i;
    if decide (p ∈ links) then
      x ← getitem r i;
      q ← py_div x (set_len links);
      Ok (total + q)
    else Ok total)
  = Ok (acc + sum_over (contrib p) l).
Proof.
  revert acc. induction l as [|i l IH]; intros acc Hin.
  - unfold sum_over. simpl. f_equal. ring.
  - destruct (Hin i) as [links Hi]; [left|].
    destruct (Hr i) as [x Hx]; [eauto|].
    cbn [for_each]. rewrite (getitem_ok _ _ _ Hi). cbn [mbind res_bind].
    rewrite sum_over_cons. unfold contrib at 1, out_of, rank_of.
    rewrite Hi, Hx. simpl default.
    destruct (decide (p ∈ links)) as [Hp|Hp].
    + rewrite (getitem_ok _ _ _ Hx). cbn [mbind res_bind].
      rewrite py_div_ok by (apply set_len_ne_0; set_solver).
      cbn [mbind res_bind]. rewrite IH by (intros; apply Hin; by right).
      f_equal. ring.
    + cbn [mbind res_bind]. rewrite IH by (intros; apply Hin; by right).
      f_equal. ring.
Qed.

Lemma sum_contrib_incoming (p : string) :
  sum_over (contrib p) (dict_keys corpus)
  = sum_over (λ q, rank_of r q / set_len (out_of corpus q))
      (incoming corpus p).
Proof.
  rewrite (sum_over_perm _ _ _ (dict_keys_nodes corpus)).
  unfold incoming. by rewrite sum_over_filter.
Qed.

Lemma sweep_total_ok (p : string) :
  sweep_total corpus r p
  = Ok (sum_over (λ q, rank_of r q / set_len (out_of corpus q))
          (incoming corpus p)).
Proof.
  unfold sweep_total.
  rewrite for_each_total by (by intros i ?%elem_of_dict_keys).
  rewrite sum_contrib_incoming. f_equal. ring.
Qed.

Lemma sweep_page_ok (p : string) (m : gmap string Qc) (c : bool) :
  is_Some (corpus !! p) →
  sweep_page corpus d (len corpus) r (m, c) p
  = Ok (<[p := next_rank corpus d r p]> m,
        if decide (tolerance < Qcabs (next_rank corpus d r p - rank_of r p))
        then false else c).
Proof.
  intros Hp. destruct (Hr p Hp) as [old Hold].
  unfold sweep_page. rewrite sweep_total_ok.
  cbn [mbind res_bind]. rewrite py_div_ok by (by eapply len_ne_0).
  cbn [mbind res_bind]. rewrite (getitem_ok _ _ _ Hold).
  cbn [mbind res_bind].
  assert (rank_of r p = old) as -> by (unfold rank_of; by rewrite Hold).
  done.
Qed.

Lemma for_each_sweep (l : list string) (m : gmap string Qc) (c : bool) :
  (∀ p, p ∈ l → is_Some (corpus !! p)) →
  for_each l (m, c) (sweep_page corpus d (len corpus) r)
  = Ok (tabulate (next_rank corpus d r) l m,
        c && bool_decide (Forall (λ p,
               Qcabs (next_rank corpus d r p - rank_of r p) ≤ tolerance) l)).
Proof.
  revert m c. induction l as [|p l IH]; intros m c Hin.
  - simpl. f_equal. f_equal. by destruct c.
  - cbn [for_each]. rewrite sweep_page_ok by (apply Hin; left).
    cbn [mbind res_bind]. rewrite IH by (intros; apply Hin; by right).
    f_equal. f_equal.
    destruct (decide (tolerance
                      < Qcabs (next_rank corpus d r p - rank_of r p)))
      as [Hgt|Hle].
    + rewrite (bool_decide_eq_false_2 (Forall _ (p :: l))).
      * by rewrite andb_false_r.
      * intros [H _]%Forall_cons. by apply Qclt_not_le in Hgt.
    + apply Qcnot_lt_le in Hle. f_equal. apply bool_decide_ext.
      rewrite Forall_cons. naive_solver.
Qed.

Lemma sweep_ok :
  sweep corpus d (len corpus) r
  = Ok (next_ranks corpus d r,
        bool_decide
          (max_change (nodes corpus) r (next_ranks corpus d r) ≤ tolerance)).
Proof.
  unfold sweep. rewrite for_each_sweep by (by intros p ?%elem_of_dict_keys).
  rewrite tabulate_dict_keys. fold (next_ranks corpus d r).
  f_equal. f_equal. simpl. apply bool_decide_ext.
  rewrite <- (max_change_perm _ _ _ _ _ (dict_keys_nodes corpus)).
  rewrite max_change_le, Forall_forall. split.
  - intros H. split; [apply Qclt_le_weak, tolerance_pos|].
    intros p Hp. specialize (H p Hp).
    apply elem_of_dict_keys in Hp as [v Hv].
    unfold rank_of at 1, next_ranks. rewrite map_lookup_imap, Hv. done.
  - intros [_ H] p Hp. specialize (H p Hp).
    apply elem_of_dict_keys in Hp as [v Hv].
    unfold rank_of at 1, next_ranks in H.
    by rewrite map_lookup_imap, Hv in H.
Qed.
End sweep.

Lemma lookup_next_ranks (corpus : gmap string (gset string)) d r p :
  next_ranks corpus d r !! p = (λ _, next_rank corpus d r p) <$> corpus !! p.
Proof. unfold next_ranks. rewrite map_lookup_imap. by destruct (corpus !! p). Qed.

Lemma dom_rank_seq (corpus : gmap string (gset string)) d k :
  dom (rank_seq corpus d k) = dom corpus.
Proof.
  destruct k as [|k]; simpl.
  - by rewrite dom_fmap_L.
  - apply set_eq. intros p.
    by rewrite !elem_of_dom, lookup_next_ranks, fmap_is_Some.
Qed.

Lemma rank_seq_is_Some (corpus : gmap string (gset string)) d k p :
  is_Some (corpus !! p) → is_Some (rank_seq corpus d k !! p).
Proof. by rewrite <- !elem_of_dom, dom_rank_seq. Qed.

Lemma sweep_rank_seq (corpus : gmap string (gset string)) d k :
  sweep corpus d (len corpus) (rank_seq corpus d k)
  = Ok (rank_seq corpus d (S k),
        bool_decide (sweep_change corpus d k ≤ tolerance)).
Proof. apply sweep_ok. intros p. apply rank_seq_is_Some. Qed.

(** The loop stops at the first sweep whose change is within the
    tolerance, and it answers the ranks that sweep computed. *)
Lemma while_not_converge_hit (corpus : gmap string (gset string)) d j :
  ∀ fuel k,
    (∀ i, (k ≤ i < k + j)%nat → tolerance < sweep_change corpus d i) →
    sweep_change corpus d (k + j) ≤ tolerance →
    (j < fuel)%nat →
    while_not_converge fuel corpus d (len corpus) (rank_seq corpus d k)
    = Ok (rank_seq corpus d (S (k + j))).
Proof.
  induction j as [|j IH]; intros fuel k Hbefore Hat Hfuel;
    (destruct fuel as [|fuel]; [lia|]);
    cbn [while_not_converge]; rewrite sweep_rank_seq; cbn [mbind res_bind].
  - rewrite Nat.add_0_r in *. by rewrite bool_decide_eq_true_2.
  - rewrite bool_decide_eq_false_2.
    2:{ apply Qclt_not_le, Hbefore. lia. }
    replace (k + S j)%nat with (S k + j)%nat in * by lia.
    apply IH; [|done|lia]. intros i Hi. apply Hbefore. lia.
Qed.

(** As long as every sweep changes some rank by more than the tolerance,
    the loop keeps going. *)
Lemma while_not_converge_miss (corpus : gmap string (gset string)) d fuel :
  ∀ k,
    (∀ i, (k ≤ i < k + fuel)%nat → tolerance < sweep_change corpus d i) →
    while_not_converge fuel corpus d (len corpus) (rank_seq corpus d k)
    = OutOfFuel.
Proof.
  induction fuel as [|fuel IH]; intros k Hbefore; [done|].
  cbn [while_not_converge]. rewrite sweep_rank_seq. cbn [mbind res_bind].
  rewrite bool_decide_eq_false_2.
  2:{ apply Qclt_not_le, Hbefore. lia. }
  apply IH. intros i Hi. apply Hbefore. lia.
Qed.

Lemma initial_ranks (corpus : gmap string (gset string)) :
  for_each (dict_keys corpus) (∅ : gmap string Qc)
    (λ pagerank page, v ← py_div 1 (len corpus); Ok (<[page := v]> pagerank))
  = Ok ((λ _, 1 / len corpus) <$> corpus).
Proof.
  rewrite (for_each_tabulate (λ _, 1 / len corpus)).
  - rewrite tabulate_dict_keys. f_equal. apply map_eq. intros p.
    rewrite map_lookup_imap, lookup_fmap. by destruct (corpus !! p).
  - intros m p Hp%elem_of_dict_keys.
    by rewrite py_div_ok by (by eapply len_ne_0).
Qed.

Lemma rank_seq_0_normalize (corpus : gmap string (gset string)) d :
  rank_seq (normalize corpus) d 0 = (λ _, 1 / len corpus) <$> corpus.
Proof.
  simpl. rewrite len_normalize. apply map_eq. intros p.
  rewrite !lookup_fmap, lookup_normalize. by destruct (corpus !! p).
Qed.

(** The solver is the [while] loop run on the normalized corpus from the
    uniform ranks; the normalized corpus is what is left in the caller's
    dict. *)
Lemma iterate_pagerank_unfold fuel (corpus : gmap string (gset string)) d :
  iterate_pagerank fuel corpus d
  = (r ← while_not_converge fuel (normalize corpus) d (len (normalize corpus))
           (rank_seq (normalize corpus) d 0);
     Ok (normalize corpus, r)).
Proof.
  unfold iterate_pagerank. rewrite initial_ranks. cbn [mbind res_bind].
  rewrite fix_dangling_ok. cbn [mbind res_bind].
  by rewrite rank_seq_0_normalize, len_normalize.
Qed.

(** ** Convergence of the sweeps for a damping factor below one *)

Lemma Qcle_refl_eq (x y : Qc) : x = y → x ≤ y.
Proof. by intros ->. Qed.

Lemma sum_over_minus {A : Type} (f g : A → Qc) (l : list A) :
  sum_over (λ x, f x - g x) l = sum_over f l - sum_over g l.
Proof.
  rewrite (sum_over_ext _ (λ x, f x + (-(1)) * g x)) by (intros; ring).
  rewrite sum_over_plus, sum_over_scale. ring.
Qed.

Section contraction.
Context (corpus : gmap string (gset string)) (d : Qc).

Lemma next_rank_weights r p :
  next_rank corpus d r p
  = (1 - d) / len corpus
    + d * sum_over (λ q, link_weight corpus q p * rank_of r q) (nodes corpus).
Proof.
  unfold next_rank, incoming. rewrite sum_over_filter. do 2 f_equal.
  apply sum_over_ext. intros q _. unfold link_weight.
  destruct (decide (p ∈ out_of corpus q)); unfold Qcdiv; ring.
Qed.

Lemma rank_of_next_ranks r p :
  is_Some (corpus !! p) →
  rank_of (next_ranks corpus d r) p = next_rank corpus d r p.
Proof.
  intros [v Hv]. unfold rank_of. by rewrite lookup_next_ranks, Hv.
Qed.

Lemma rank_diff_step k p :
  p ∈ nodes corpus →
  rank_diff corpus d (S k) p
  = d * sum_over (λ q, link_weight corpus q p * rank_diff corpus d k q)
          (nodes corpus).
Proof.
  intros Hp%elem_of_nodes. unfold rank_diff at 1.
  cbn [rank_seq]. rewrite !rank_of_next_ranks by done.
  rewrite !next_rank_weights.
  rewrite (sum_over_ext (λ q, link_weight corpus q p * rank_diff corpus d k q)
             (λ q, link_weight corpus q p
                   * rank_of (next_ranks corpus d (rank_seq corpus d k)) q
                   - link_weight corpus q p * rank_of (rank_seq corpus d k) q)).
  2:{ intros q _. unfold rank_diff. cbn [rank_seq]. ring. }
  rewrite sum_over_minus. ring.
Qed.

Lemma link_weight_nonneg q p : 0 ≤ link_weight corpus q p.
Proof.
  unfold link_weight. destruct (decide (p ∈ out_of corpus q)) as [Hp|]; [|done].
  unfold Qcdiv. rewrite Qcmult_1_l. apply Qclt_le_weak, Qcinv_pos.
  apply Qc_of_nat_pos. destruct (size (out_of corpus q)) eqn:E; [|lia].
  apply size_empty_inv in E. set_solver.
Qed.

Lemma sum_link_weight_le_1 q :
  sum_over (λ p, link_weight corpus q p) (nodes corpus) ≤ 1.
Proof.
  unfold link_weight, nodes. rewrite sum_over_indicator.
  destruct (decide (out_of corpus q = ∅)) as [->|Hne].
  - rewrite intersection_empty_l_L, size_empty.
    change (Qc_of_nat 0) with (Qc_of_Z 0). rewrite Z2Qc_inj_0.
    by rewrite Qcmult_0_l.
  - assert (0 < set_len (out_of corpus q)) as Hpos.
    { apply Qc_of_nat_pos. destruct (size (out_of corpus q)) eqn:E; [|lia].
      by apply size_empty_inv, leibniz_equiv in E. }
    assert (Qc_of_nat (size (out_of corpus q ∩ dom corpus))
            ≤ set_len (out_of corpus q)) as Hle.
    { apply (proj1 (Z2Qc_inj_le _ _)), inj_le, subseteq_size. set_solver. }
    assert (set_len (out_of corpus q) ≠ 0) as Hnz by (by apply set_len_ne_0).
    apply (Qcmult_le_mono_pos_r _ _ (set_len (out_of corpus q))); [done|].
    rewrite Qcmult_1_l.
    replace (Qc_of_nat (size (out_of corpus q ∩ dom corpus))
             * (1 / set_len (out_of corpus q)) * set_len (out_of corpus q))
      with (Qc_of_nat (size (out_of corpus q ∩ dom corpus))); [done|].
    revert Hnz. generalize (set_len (out_of corpus q)). intros s Hs.
    by field.
Qed.
End contraction.

Section convergence.
Context (corpus : gmap string (gset string)) (d : Qc).
Hypothesis Hd0 : 0 ≤ d.

Lemma l1_change_nonneg k : 0 ≤ l1_change corpus d k.
Proof. apply sum_over_nonneg. intros p _. apply Qcabs_nonneg. Qed.

(** A sweep shrinks the summed change by the factor [d] at least. *)
Lemma l1_contract k : l1_change corpus d (S k) ≤ d * l1_change corpus d k.
Proof.
  unfold l1_change at 1.
  etrans.
  { apply (sum_over_le _ (λ p, d * sum_over (λ q,
             link_weight corpus q p * Qcabs (rank_diff corpus d k q))
             (nodes corpus))).
    intros p Hp. rewrite rank_diff_step by done.
    rewrite Qcabs_Qcmult, (Qcabs_pos d) by done.
    apply Qcmult_le_mono_nonneg_l; [done|].
    etrans; [apply sum_over_abs|]. apply Qcle_refl_eq.
    apply sum_over_ext. intros q _.
    by rewrite Qcabs_Qcmult, (Qcabs_pos (link_weight _ _ _))
      by apply link_weight_nonneg. }
  rewrite sum_over_scale. apply Qcmult_le_mono_nonneg_l; [done|].
  rewrite sum_over_swap. unfold l1_change. apply sum_over_le.
  intros q _.
  rewrite (sum_over_ext _ (λ p, Qcabs (rank_diff corpus d k q)
                                * link_weight corpus q p))
    by (intros; ring).
  rewrite sum_over_scale.
  rewrite <- (Qcmult_1_r (Qcabs (rank_diff corpus d k q))) at 2.
  apply Qcmult_le_mono_nonneg_l; [apply Qcabs_nonneg|].
  apply sum_link_weight_le_1.
Qed.

Lemma sweep_change_le_l1 k : sweep_change corpus d k ≤ l1_change corpus d k.
Proof.
  unfold sweep_change. apply max_change_le.
  split; [apply l1_change_nonneg|]. intros p Hp.
  apply (sum_over_elem_le (λ p, Qcabs (rank_diff corpus d k p)));
    [|done]. intros q _. apply Qcabs_nonneg.
Qed.

Hypothesis Hd1 : d ≤ 1.

Lemma l1_bernoulli k :
  l1_change corpus d k * (1 + Qc_of_nat k * (1 - d)) ≤ l1_change corpus d 0.
Proof.
  induction k as [|k IH].
  - change (Qc_of_nat 0) with (Qc_of_Z 0). rewrite Z2Qc_inj_0.
    apply Qcle_refl_eq. ring.
  - rewrite Qc_of_nat_S.
    pose proof (l1_contract k) as Hc.
    pose proof (l1_change_nonneg (S k)) as Ha.
    pose proof (l1_change_nonneg k) as Hb.
    pose proof (Qc_of_nat_nonneg k) as HK.
    revert IH Hc Ha Hb HK.
    generalize (l1_change corpus d (S k)) (l1_change corpus d k)
      (l1_change corpus d 0) (Qc_of_nat k).
    intros a b L K IH Hc Ha Hb HK.
    assert (0 ≤ 1 - d) as Ht by qc_lra.
    assert (0 ≤ (d * b - a) * (1 + (1 + K) * (1 - d))) as H1.
    { apply Qcmult_nonneg_nonneg; [qc_lra|].
      apply Qcplus_nonneg_nonneg; [done|].
      apply Qcmult_nonneg_nonneg; [qc_lra|done]. }
    assert (0 ≤ b * ((1 - d) * (1 - d) * (1 + K))) as H2.
    { repeat apply Qcmult_nonneg_nonneg; try done. qc_lra. }
    replace (a * (1 + (1 + K) * (1 - d)))
      with (b * (1 + K * (1 - d))
            - (d * b - a) * (1 + (1 + K) * (1 - d))
            - b * ((1 - d) * (1 - d) * (1 + K))) by ring.
    revert IH H1 H2.
    generalize (b * (1 + K * (1 - d)))
      ((d * b - a) * (1 + (1 + K) * (1 - d)))
      (b * ((1 - d) * (1 - d) * (1 + K))).
    intros u v w IH H1 H2. qc_lra.
Qed.
End convergence.

Lemma Qc_archimedean (x : Qc) : ∃ n : nat, x ≤ Qc_of_nat n.
Proof.
  exists (Z.to_nat (Qceiling x)). unfold Qcle. simpl.
  eapply Qle_trans; [apply Qle_ceiling|]. rewrite <- Zle_Qle. lia.
Qed.

Lemma first_such (P : nat → Prop) `{!∀ n, Decision (P n)} (n : nat) :
  P n → ∃ k, P k ∧ ∀ j, (j < k)%nat → ¬ P j.
Proof.
  intros Hn.
  assert (∀ m, (∃ k, P k ∧ ∀ j, (j < k)%nat → ¬ P j)
               ∨ (∀ j, (j ≤ m)%nat → ¬ P j)) as Hall.
  { induction m as [|m [IH|IH]].
    - destruct (decide (P O)) as [H0|H0].
      + left. exists O. split; [done|]. intros j Hj. lia.
      + right. intros j Hj. by replace j with O by lia.
    - by left.
    - destruct (decide (P (S m))) as [Hm|Hm].
      + left. exists (S m). split; [done|]. intros j Hj. apply IH. lia.
      + right. intros j Hj. destruct (decide (j = S m)) as [->|]; [done|].
        apply IH. lia. }
  destruct (Hall n) as [?|Hnone]; [done|]. by destruct (Hnone n).
Qed.

(** For a damping factor of [[0, 1)], some sweep changes no rank by more
    than the tolerance; [k] is the first such sweep. *)
Lemma sweeps_converge (corpus : gmap string (gset string)) (d : Qc) :
  0 ≤ d → d < 1 →
  ∃ k, sweep_change corpus d k ≤ tolerance
       ∧ ∀ j, (j < k)%nat → tolerance < sweep_change corpus d j.
Proof.
  intros Hd0 Hd1.
  assert (∃ n, sweep_change corpus d n ≤ tolerance) as [n Hn].
  { assert (0 < tolerance * (1 - d)) as Hpos.
    { apply Qcmult_pos_pos; [apply tolerance_pos|]. qc_lra. }
    destruct (Qc_archimedean (l1_change corpus d 0 / (tolerance * (1 - d))))
      as [n Hn].
    exists n. etrans; [by apply sweep_change_le_l1|].
    pose proof (l1_bernoulli corpus d Hd0 (Qclt_le_weak _ _ Hd1) n) as Hb.
    apply (Qcmult_le_mono_pos_r _ _ (tolerance * (1 - d))) in Hn; [|done].
    assert (∀ L T : Qc, 0 < T → L / T * T = L) as Hdiv.
    { intros L T HT%Qclt_not_eq. field. by intros ->. }
    rewrite Hdiv in Hn by done. clear Hdiv.
    pose proof (Qc_of_nat_nonneg n) as HK. pose proof tolerance_pos as Ht.
    pose proof (l1_change_nonneg corpus d n) as Hl.
    revert Hb Hn HK Ht Hl Hd0 Hd1.
    generalize (l1_change corpus d n) (l1_change corpus d 0) (Qc_of_nat n)
      tolerance.
    intros a L K t Hb Hn HK Ht Hl Hd0 Hd1.
    apply Qcnot_lt_le. intros Hlt.
    assert (0 < 1 + K * (1 - d)) as HKpos.
    { apply Qcplus_pos_nonneg; [done|]. apply Qcmult_nonneg_nonneg; [done|].
      qc_lra. }
    apply (Qcmult_lt_mono_pos_r _ _ (1 + K * (1 - d))) in Hlt; [|done].
    assert (t * (1 + K * (1 - d)) = t * (1 - d) + K * (t * (1 - d)) + t * d)
      as Heq by ring.
    assert (0 ≤ t * d) by (apply Qcmult_nonneg_nonneg; [by apply Qclt_le_weak|done]).
    assert (0 ≤ t * (1 - d)).
    { apply Qcmult_nonneg_nonneg; [by apply Qclt_le_weak|]. qc_lra. }
    rewrite Heq in Hlt. clear Heq HKpos.
    revert Hlt Hb Hn. generalize (a * (1 + K * (1 - d))) (K * (t * (1 - d))).
    intros u v Hlt Hb Hn. qc_lra. }
  destruct (first_such (λ k, sweep_change corpus d k ≤ tolerance) n Hn)
    as (k & Hk & Hfirst).
  exists k. split; [done|]. intros j Hj. by apply Qcnot_le_lt, Hfirst.
Qed.

(** ** [iterate_pagerank]: what it returns *)

Lemma iterate_pagerank_hit fuel (corpus : gmap string (gset string)) d k :
  (∀ j, (j < k)%nat → tolerance < sweep_change (normalize corpus) d j) →
  sweep_change (normalize corpus) d k ≤ tolerance →
  (k < fuel)%nat →
  iterate_pagerank fuel corpus d
  = Ok (normalize corpus, rank_seq (normalize corpus) d (S k)).
Proof.
  intros Hbefore Hat Hfuel. rewrite iterate_pagerank_unfold.
  rewrite (while_not_converge_hit _ _ k fuel 0); [done| |done..].
  intros i Hi. apply Hbefore. lia.
Qed.

Lemma iterate_pagerank_miss fuel (corpus : gmap string (gset string)) d :
  (∀ j, (j < fuel)%nat → tolerance < sweep_change (normalize corpus) d j) →
  iterate_pagerank fuel corpus d = OutOfFuel.
Proof.
  intros Hbefore. rewrite iterate_pagerank_unfold.
  rewrite (while_not_converge_miss _ _ fuel 0); [done|].
  intros i Hi. apply Hbefore. lia.
Qed.

(** Whatever the fuel, the solver answers ranks or runs out of fuel: no
    statement of it raises. *)
Lemma iterate_pagerank_cases fuel (corpus : gmap string (gset string)) d :
  iterate_pagerank fuel corpus d = OutOfFuel
  ∨ ∃ k, (k < fuel)%nat
         ∧ sweep_change (normalize corpus) d k ≤ tolerance
         ∧ (∀ j, (j < k)%nat → tolerance < sweep_change (normalize corpus) d j)
         ∧ iterate_pagerank fuel corpus d
           = Ok (normalize corpus, rank_seq (normalize corpus) d (S k)).
Proof.
  destruct (decide (Forall (λ j, tolerance < sweep_change (normalize corpus) d j)
                      (seq 0 fuel))) as [Hall|Hex].
  - left. apply iterate_pagerank_miss. intros j Hj.
    rewrite Forall_forall in Hall. apply Hall, elem_of_seq. lia.
  - right. apply not_Forall_Exists, Exists_exists in Hex as (n & Hn & Hle);
      [|apply _].
    apply elem_of_seq in Hn. apply Qcnot_lt_le in Hle.
    destruct (first_such (λ k, sweep_change (normalize corpus) d k ≤ tolerance)
                n Hle) as (k & Hk & Hfirst).
    assert (k ≤ n)%nat.
    { destruct (decide (k ≤ n)%nat); [done|]. destruct (Hfirst n); [lia|done]. }
    assert (∀ j, (j < k)%nat → tolerance < sweep_change (normalize corpus) d j)
      by (intros j Hj; by apply Qcnot_le_lt, Hfirst).
    exists k. repeat split; [lia|done..|].
    apply iterate_pagerank_hit; [done..|lia].
Qed.

(** *** The three-page cycle at damping factor one *)






(** ** The [random] module *)

Lemma advance_0 g : advance g 0 = g.
Proof. destruct g. unfold advance. simpl. by rewrite Nat.add_0_r. Qed.

Lemma advance_advance g j k : advance (advance g j) k = advance g (j + k).
Proof. unfold advance. simpl. by rewrite Nat.add_assoc. Qed.

Lemma random_advance g : (random g).2 = advance g 1.
Proof. unfold random, advance. simpl. by rewrite Nat.add_1_r. Qed.

Lemma Qc_floor_spec (x : Qc) (i : Z) :
  Qc_floor x = i ↔ Qc_of_Z i ≤ x ∧ x < Qc_of_Z i + 1.
Proof.
  unfold Qc_floor, Qcle, Qclt. simpl. rewrite Qred_correct.
  change (Qred 1) with (inject_Z 1).
  rewrite <- inject_Z_plus. split.
  - intros <-. split; [apply Qfloor_le|apply Qlt_floor].
  - intros [Hle Hlt]. apply Z.le_antisymm.
    + apply Z.lt_succ_r. rewrite Zlt_Qlt.
      eapply Qle_lt_trans; [apply Qfloor_le|]. by rewrite <- Z.add_1_r.
    + apply Z.lt_succ_r. rewrite Zlt_Qlt.
      eapply Qle_lt_trans; [exact Hle|]. rewrite <- Z.add_1_r. apply Qlt_floor.
Qed.

(** [random.choice]: with [u] the number drawn, the element at index [i]
    is chosen exactly when [i/N ≤ u < i/N + 1/N]. *)
Lemma random_choice_index {A : Type} (seq : list A) (g : rng) (i : nat) (x : A) :
  0 ≤ draws g (cursor g) →
  seq !! i = Some x →
  NoDup seq →
  (random_choice seq g = Ok (x, advance g 1))
  ↔ (Qc_of_nat i / Qc_of_nat (length seq) ≤ draws g (cursor g)
     ∧ draws g (cursor g)
       < Qc_of_nat i / Qc_of_nat (length seq) + 1 / Qc_of_nat (length seq)).
Proof.
  intros Hu Hi Hnd.
  assert (0 < Qc_of_nat (length seq)) as HN.
  { apply Qc_of_nat_pos. apply lookup_lt_Some in Hi. lia. }
  assert (Qc_of_nat (length seq) ≠ 0) as HN0 by (by apply Qclt_not_eq, not_eq_sym in HN).
  unfold random_choice. destruct seq as [|y seq']; [done|].
  set (l := y :: seq') in *. cbn [random fst snd].
  rewrite <- random_advance. cbn [random snd].
  set (u := draws g (cursor g)) in *.
  assert (0 ≤ u * Qc_of_nat (length l)) as Hpos.
  { apply Qcmult_nonneg_nonneg; [done|by apply Qclt_le_weak]. }
  assert (Z.to_nat (Qc_floor (u * Qc_of_nat (length l))) = i
          ↔ Qc_floor (u * Qc_of_nat (length l)) = Z.of_nat i) as Hnat.
  { assert (0 ≤ Qc_floor (u * Qc_of_nat (length l)))%Z; [|lia].
    destruct (Qc_floor_spec (u * Qc_of_nat (length l))
                (Qc_floor (u * Qc_of_nat (length l)))) as [[_ Hlt] _]; [done|].
    apply Z.lt_succ_r, (proj2 (Z2Qc_inj_lt _ _)).
    rewrite <- Z.add_1_r, Z2Qc_inj_add, Z2Qc_inj_1.
    eapply Qcle_lt_trans; [|exact Hlt]. by rewrite Z2Qc_inj_0. }
  assert ((Qc_of_nat i / Qc_of_nat (length l) ≤ u
           ∧ u < Qc_of_nat i / Qc_of_nat (length l) + 1 / Qc_of_nat (length l))
          ↔ Qc_floor (u * Qc_of_nat (length l)) = Z.of_nat i) as ->.
  { rewrite Qc_floor_spec.
    rewrite (Qcmult_le_mono_pos_r (_ / _) u (Qc_of_nat (length l))) by done.
    rewrite (Qcmult_lt_mono_pos_r u _ (Qc_of_nat (length l))) by done.
    replace (Qc_of_nat i / Qc_of_nat (length l) * Qc_of_nat (length l))
      with (Qc_of_nat i) by (by field).
    replace ((Qc_of_nat i / Qc_of_nat (length l) + 1 / Qc_of_nat (length l))
             * Qc_of_nat (length l))
      with (Qc_of_nat i + 1) by (by field).
    done. }
  rewrite <- Hnat. split.
  - destruct (l !! Z.to_nat _) as [x'|] eqn:Hx'; [|done].
    intros [= ->]. by eapply NoDup_lookup.
  - intros ->. by rewrite Hi.
Qed.

Lemma random_choice_ok {A : Type} (seq : list A) (g : rng) :
  seq ≠ [] →
  0 ≤ draws g (cursor g) → draws g (cursor g) < 1 →
  ∃ x, x ∈ seq ∧ random_choice seq g = Ok (x, advance g 1).
Proof.
  intros Hne Hu0 Hu1.
  assert (0 < Qc_of_nat (length seq)) as HN.
  { apply Qc_of_nat_pos. destruct seq; [done|simpl; lia]. }
  unfold random_choice. destruct seq as [|y seq']; [done|].
  set (l := y :: seq') in *. cbn [random fst snd].
  rewrite <- random_advance. cbn [random snd].
  set (u := draws g (cursor g)) in *.
  set (z := Qc_floor (u * Qc_of_nat (length l))).
  destruct (Qc_floor_spec (u * Qc_of_nat (length l)) z) as [[Hle Hlt] _]; [done|].
  assert (z < Z.of_nat (length l))%Z as Hz.
  { apply (proj2 (Z2Qc_inj_lt _ _)). eapply Qcle_lt_trans; [exact Hle|].
    rewrite <- (Qcmult_1_l (Qc_of_nat (length l))) at 2.
    by apply Qcmult_lt_mono_pos_r. }
  destruct (l !! Z.to_nat z) as [x|] eqn:Hx.
  - exists x. split; [|done]. by eapply list_elem_of_lookup_2.
  - apply lookup_ge_None in Hx.
    assert (0 < length l)%nat by (unfold l; simpl; lia). lia.
Qed.

Lemma length_accumulate_from acc ws :
  length (accumulate_from acc ws) = length ws.
Proof.
  revert acc. induction ws as [|w ws IH]; intros acc; simpl; [done|].
  by rewrite IH.
Qed.

Lemma last_accumulate_from acc ws :
  ws ≠ [] → last (accumulate_from acc ws) = Some (acc + sumQc ws).
Proof.
  revert acc. induction ws as [|w ws IH]; intros acc Hne; [done|].
  destruct ws as [|w' ws].
  - simpl. f_equal. ring.
  - change (last (accumulate_from (acc + w) (w' :: ws))
            = Some (acc + (w + sumQc (w' :: ws)))).
    rewrite IH by done. f_equal. ring.
Qed.

Lemma bisect_le a x hi : (bisect a x hi ≤ hi)%nat.
Proof.
  revert a. induction hi as [|hi IH]; intros [|c a]; simpl; try lia.
  destruct (decide (x < c)); [lia|]. specialize (IH a). lia.
Qed.

Lemma sumQc_app l1 l2 : sumQc (l1 ++ l2) = sumQc l1 + sumQc l2.
Proof.
  induction l1 as [|x l1 IH]; simpl; [ring|]. rewrite IH. ring.
Qed.

Lemma sumQc_nonneg l : Forall (λ w, 0 ≤ w) l → 0 ≤ sumQc l.
Proof.
  induction 1 as [|w l Hw _ IH]; simpl; [done|].
  by apply Qcplus_nonneg_nonneg.
Qed.

Lemma sumQc_take_S ws j w :
  ws !! j = Some w → sumQc (take (S j) ws) = sumQc (take j ws) + w.
Proof.
  intros Hj. rewrite (take_S_r _ _ _ Hj), sumQc_app. simpl. ring.
Qed.

(** Where [bisect] lands: with non-negative weights, the index is [j]
    exactly when [x] lies between the running sum before [j] and the
    running sum at [j]. *)
Lemma bisect_interval ws : ∀ acc x j,
  Forall (λ w, 0 ≤ w) ws →
  acc ≤ x → x < acc + sumQc ws →
  (j < length ws)%nat →
  bisect (accumulate_from acc ws) x (length ws - 1) = j
  ↔ acc + sumQc (take j ws) ≤ x ∧ x < acc + sumQc (take (S j) ws).
Proof.
  induction ws as [|w ws IH]; intros acc x j Hpos Hlo Hhi Hj; [simpl in Hj; lia|].
  apply Forall_cons in Hpos as [Hw Hpos].
  pose proof (sumQc_nonneg _ Hpos) as Hsum.
  destruct ws as [|w' ws'].
  - assert (j = O) as -> by (simpl in Hj; lia). simpl in *.
    split; [intros _|done]. split; qc_lra.
  - set (ws := w' :: ws') in *.
    assert (length (w :: ws) - 1 = S (length ws - 1))%nat as ->
      by (unfold ws; simpl; lia).
    cbn [accumulate_from bisect].
    assert (∀ i, 0 ≤ sumQc (take i ws)) as Htake.
    { intros i. apply sumQc_nonneg, Forall_take, Hpos. }
    destruct (decide (x < acc + w)) as [Hx|Hx].
    + destruct j as [|j].
      * split; [intros _|done]. simpl. split; qc_lra.
      * split; [done|]. cbn [take sumQc foldr]. fold (sumQc (take j ws)).
        intros [Hle _]. pose proof (Htake j). qc_lra.
    + apply Qcnot_lt_le in Hx. destruct j as [|j].
      * split; [done|]. simpl. intros [_ Hlt]. qc_lra.
      * cbn [sumQc foldr] in Hhi. fold (sumQc ws) in Hhi.
        change (length (w :: ws)) with (S (length ws)) in Hj.
        rewrite (inj_iff S), (IH (acc + w) x j); [|done|done|qc_lra|lia].
        cbn [take sumQc foldr]. fold (sumQc (take j ws)) (sumQc (take (S j) ws)).
        split; intros [H1 H2]; split; qc_lra.
Qed.

Lemma random_choices_ok {A : Type} (population : list A) (weights : list Qc) g :
  length population = length weights →
  0 < sumQc weights →
  ∃ x, x ∈ population
       ∧ random_choices population weights g = Ok (x, advance g 1).
Proof.
  intros Hlen Hsum. unfold random_choices, accumulate.
  assert (weights ≠ []) as Hne by (intros ->; by apply Qclt_not_eq in Hsum).
  rewrite decide_True by (by rewrite length_accumulate_from).
  rewrite last_accumulate_from, Qcplus_0_l by done.
  rewrite decide_False by (by apply Qclt_not_le).
  cbn [random]. rewrite <- random_advance. cbn [random snd].
  set (i := bisect _ _ _).
  assert (i < length population)%nat as Hi.
  { pose proof (bisect_le (accumulate_from 0 weights)
                  (draws g (cursor g) * sumQc weights) (length population - 1)).
    destruct weights; [done|]. simpl in Hlen. unfold i. lia. }
  apply lookup_lt_is_Some_2 in Hi as [x Hx]. rewrite Hx.
  exists x. split; [|done]. by eapply list_elem_of_lookup_2.
Qed.

(** [random.choices]: with non-negative weights that add up to [1] and
    with [u] the number drawn, the element at index [j] is chosen exactly
    when [u] lies in an interval whose length is the weight at [j]. *)
Lemma random_choices_index {A : Type} (population : list A) (weights : list Qc)
    g j x w :
  NoDup population →
  length population = length weights →
  Forall (λ w, 0 ≤ w) weights →
  sumQc weights = 1 →
  0 ≤ draws g (cursor g) → draws g (cursor g) < 1 →
  population !! j = Some x →
  weights !! j = Some w →
  random_choices population weights g = Ok (x, advance g 1)
  ↔ sumQc (take j weights) ≤ draws g (cursor g)
    ∧ draws g (cursor g) < sumQc (take j weights) + w.
Proof.
  intros Hnd Hlen Hpos Hsum Hu0 Hu1 Hx Hw.
  unfold random_choices, accumulate.
  assert (weights ≠ []) as Hne by (intros ->; by rewrite lookup_nil in Hw).
  rewrite decide_True by (by rewrite length_accumulate_from).
  rewrite last_accumulate_from, Qcplus_0_l, Hsum by done.
  rewrite decide_False by (by apply Qclt_not_le).
  cbn [random]. rewrite <- random_advance. cbn [random snd].
  rewrite Qcmult_1_r, Hlen.
  rewrite <- (sumQc_take_S _ _ _ Hw).
  rewrite <- (Qcplus_0_l (sumQc (take j weights))).
  rewrite <- (Qcplus_0_l (sumQc (take (S j) weights))).
  rewrite <- (bisect_interval weights 0 (draws g (cursor g)) j);
    [|done|done|by rewrite Qcplus_0_l, Hsum|by eapply lookup_lt_Some].
  set (i := bisect _ _ _). split.
  - destruct (population !! i) as [x'|] eqn:Hi; [|done].
    intros [= ->]. by eapply NoDup_lookup.
  - intros ->. by rewrite Hx.
Qed.

(** ** [sample_pagerank]: the loops *)

Lemma initial_counts (corpus : gmap string (gset string)) :
  for_each (dict_keys corpus) (∅ : gmap string Z)
    (λ counts page, Ok (<[page := 0%Z]> counts))
  = Ok ((λ _, 0%Z) <$> corpus).
Proof.
  rewrite (for_each_tabulate (λ _, 0%Z)) by done.
  rewrite tabulate_dict_keys. f_equal. apply map_eq. intros p.
  rewrite map_lookup_imap, lookup_fmap. by destruct (corpus !! p).
Qed.

Lemma length_dict_values {V : Type} (m : gmap string V) :
  length (dict_keys m) = length (dict_values m).
Proof. unfold dict_keys, dict_values. by rewrite !length_fmap. Qed.

Lemma sum_transition_dist (corpus : gmap string (gset string)) page links d :
  corpus !! page = Some links →
  links ⊆ dom corpus →
  sumQc (dict_values (transition_dist corpus links d)) = 1.
Proof.
  intros Hpage Hsub.
  assert (corpus ≠ ∅) as Hne by (intros ->; by rewrite lookup_empty in Hpage).
  rewrite sumQc_dict_values.
  unfold nodes. rewrite dom_transition_dist. fold (nodes corpus).
  rewrite <- (sum_transition_weight corpus links d Hne Hsub).
  apply sum_over_ext. intros q [v Hq]%elem_of_nodes.
  unfold rank_of. by rewrite lookup_transition_dist, Hq.
Qed.

Lemma visits_cons x visited p :
  visits (x :: visited) p
  = ((if decide (x = p) then 1 else 0) + visits visited p)%Z.
Proof.
  unfold visits. rewrite filter_cons.
  destruct (decide (x = p)); simpl length; lia.
Qed.

Lemma visits_nonneg visited p : (0 ≤ visits visited p)%Z.
Proof. unfold visits. lia. Qed.

Section sampling.
Context (corpus : gmap string (gset string)) (d : Qc).
Hypothesis Hinv : reference_invariant corpus.

Lemma sample_step_ok (counts : gmap string Z) (page : string) (g : rng) :
  dom counts = dom corpus →
  page ∈ dom corpus →
  ∃ c probs page',
    counts !! page = Some c
    ∧ transition_model corpus page d = Ok probs
    ∧ random_choices (dict_keys probs) (dict_values probs) g
      = Ok (page', advance g 1)
    ∧ page' ∈ dom corpus
    ∧ sample_step corpus d (counts, page, g)
      = Ok (<[page := (c + 1)%Z]> counts, page', advance g 1).
Proof.
  intros Hdom Hpage.
  assert (page ∈ dom counts) as [c Hc]%elem_of_dom by (by rewrite Hdom).
  destruct (proj1 (elem_of_dom _ _) Hpage) as [links Hlinks].
  assert (links ⊆ dom corpus) as Hsub by (by eapply Hinv).
  pose proof (transition_model_ok corpus page links d Hlinks Hsub) as Htm.
  destruct (random_choices_ok
              (dict_keys (transition_dist corpus links d))
              (dict_values (transition_dist corpus links d)) g)
    as (page' & Hin & Hch).
  { apply length_dict_values. }
  { by rewrite (sum_transition_dist _ page). }
  exists c, (transition_dist corpus links d), page'.
  split; [done|]. split; [done|]. split; [done|]. split.
  - apply elem_of_dict_keys in Hin.
    by rewrite <- (dom_transition_dist corpus links d), elem_of_dom.
  - unfold sample_step. rewrite (getitem_ok _ _ _ Hc). cbn [mbind res_bind].
    rewrite Htm. cbn [mbind res_bind]. rewrite Hch. done.
Qed.

Lemma sample_loop (n : nat) : ∀ (counts : gmap string Z) page g,
  dom counts = dom corpus →
  page ∈ dom corpus →
  ∃ visited last,
    walk corpus d page g visited last (advance g n)
    ∧ length visited = n
    ∧ Forall (λ p, p ∈ dom corpus) visited
    ∧ last ∈ dom corpus
    ∧ repeat_n n (counts, page, g) (sample_step corpus d)
      = Ok (map_imap (λ p c, Some (c + visits visited p)%Z) counts,
            last, advance g n).
Proof.
  induction n as [|n IH]; intros counts page g Hdom Hpage.
  - exists [], page. rewrite advance_0. split; [constructor|].
    split; [done|]. split; [done|]. split; [done|].
    simpl. do 3 f_equal. apply map_eq. intros p. rewrite map_lookup_imap.
    destruct (counts !! p) as [c|]; [|done]. simpl. f_equal.
    unfold visits. simpl. lia.
  - destruct (sample_step_ok counts page g Hdom Hpage)
      as (c & probs & page' & Hc & Htm & Hch & Hpage' & Hstep).
    destruct (IH (<[page := (c + 1)%Z]> counts) page' (advance g 1))
      as (visited & last & Hwalk & Hlen & Hall & Hlast & Hloop);
      [|done|].
    { rewrite dom_insert_L, Hdom. set_solver. }
    rewrite advance_advance in Hwalk, Hloop.
    exists (page :: visited), last.
    split; [by econstructor|]. split; [simpl; by rewrite Hlen|].
    split; [by constructor|]. split; [done|].
    cbn [repeat_n]. rewrite Hstep. cbn [mbind res_bind]. rewrite Hloop.
    do 3 f_equal. apply map_eq. intros p. rewrite !map_lookup_imap.
    rewrite visits_cons. destruct (decide (page = p)) as [->|Hne].
    + rewrite lookup_insert_eq, Hc. simpl. f_equal. lia.
    + rewrite lookup_insert_ne by done.
      destruct (counts !! p); simpl; [f_equal; lia|done].
Qed.
End sampling.

(** The dict comprehension over [counts.items()]. *)
Lemma for_each_items (n : Qc) (l : list (string * Z)) (m : gmap string Qc) :
  n ≠ 0 →
  for_each l m (λ pagerank '(page, count),
    v ← py_div (Qc_of_Z count) n; Ok (<[page := v]> pagerank))
  = Ok (foldl (λ m '(page, count), <[page := Qc_of_Z count / n]> m) m l).
Proof.
  intros Hn. revert m. induction l as [|[p c] l IH]; intros m; [done|].
  cbn [for_each foldl]. rewrite py_div_ok by done. cbn [mbind res_bind].
  apply IH.
Qed.

Lemma lookup_foldl_items (n : Qc) (l : list (string * Z)) (m : gmap string Qc) k :
  NoDup l.*1 →
  foldl (λ m '(page, count), <[page := Qc_of_Z count / n]> m) m l !! k
  = match (list_to_map l : gmap string Z) !! k with
    | Some c => Some (Qc_of_Z c / n)
    | None => m !! k
    end.
Proof.
  revert m. induction l as [|[p c] l IH]; intros m Hnd; [done|].
  apply NoDup_cons in Hnd as [Hp Hnd]. cbn [foldl list_to_map foldr].
  rewrite IH by done. simpl. destruct (decide (k = p)) as [->|Hne].
  - rewrite lookup_insert_eq.
    by rewrite (not_elem_of_list_to_map_1 (M := gmap string) l p), lookup_insert_eq.
  - rewrite (lookup_insert_ne (list_to_map l)) by done.
    destruct (list_to_map l !! k); [done|]. by rewrite lookup_insert_ne.
Qed.

Lemma final_ranks (n : Z) (counts : gmap string Z) :
  n ≠ 0%Z →
  for_each (map_to_list counts) (∅ : gmap string Qc)
    (λ pagerank '(page, count),
       v ← py_div (Qc_of_Z count) (Qc_of_Z n); Ok (<[page := v]> pagerank))
  = Ok ((λ c, Qc_of_Z c / Qc_of_Z n) <$> counts).
Proof.
  intros Hn. rewrite for_each_items.
  - f_equal. apply map_eq. intros k.
    rewrite lookup_foldl_items by apply NoDup_fst_map_to_list.
    rewrite list_to_map_to_list, lookup_fmap.
    by destruct (counts !! k).
  - rewrite <- Z2Qc_inj_0. by intros ?%Z2Qc_inj.
Qed.

Lemma final_ranks_zero (counts : gmap string Z) :
  counts ≠ ∅ →
  for_each (map_to_list counts) (∅ : gmap string Qc)
    (λ pagerank '(page, count),
       v ← py_div (Qc_of_Z count) (Qc_of_Z 0); Ok (<[page := v]> pagerank))
  = Raise ZeroDivisionError.
Proof.
  intros Hne. destruct (map_to_list counts) as [|[p c] l] eqn:E.
  - by apply map_to_list_empty_iff in E.
  - cbn [for_each]. unfold py_div. by rewrite Z2Qc_inj_0, decide_True.
Qed.

Lemma sum_visits (D : gset string) (visited : list string) :
  Forall (λ p, p ∈ D) visited →
  sum_over (λ p, Qc_of_Z (visits visited p)) (elements D)
  = Qc_of_nat (length visited).
Proof.
  induction 1 as [|x visited Hx _ IH].
  - rewrite (sum_over_ext _ (λ _, 0)).
    + rewrite sum_over_zero. symmetry. apply Z2Qc_inj_0.
    + intros p _. apply Z2Qc_inj_0.
  - rewrite (sum_over_ext _ (λ p, (if decide (p ∈ ({[x]} : gset string))
                                   then 1 else 0)
                                  + Qc_of_Z (visits visited p))).
    2:{ intros p _. rewrite visits_cons, Z2Qc_inj_add. f_equal.
        destruct (decide (x = p)) as [->|Hne].
        - rewrite decide_True by set_solver. apply Z2Qc_inj_1.
        - rewrite decide_False by set_solver. apply Z2Qc_inj_0. }
    rewrite sum_over_plus, IH, sum_over_indicator.
    replace ({[x]} ∩ D) with ({[x]} : gset string) by set_solver.
    rewrite size_singleton. simpl length. rewrite (Qc_of_nat_S (length visited)).
    change (Qc_of_nat 1) with (Qc_of_Z 1). rewrite Z2Qc_inj_1. ring.
Qed.

(** ** [sample_pagerank]: what it returns *)

Lemma lookup_sample_ranks (corpus : gmap string (gset string)) visited n p :
  sample_ranks corpus visited n !! p
  = (λ _, Qc_of_Z (visits visited p) / Qc_of_Z n) <$> corpus !! p.
Proof. unfold sample_ranks. rewrite map_lookup_imap. by destruct (corpus !! p). Qed.

Lemma dom_sample_ranks (corpus : gmap string (gset string)) visited n :
  dom (sample_ranks corpus visited n) = dom corpus.
Proof.
  apply set_eq. intros p.
  by rewrite !elem_of_dom, lookup_sample_ranks, fmap_is_Some.
Qed.

Lemma sample_pagerank_empty d n g :
  sample_pagerank ∅ d n g = Raise IndexError.
Proof. unfold sample_pagerank. by rewrite dict_keys_empty. Qed.

(** A run of the sampler on a non-empty graph: the start page, the pages
    visited, and the result, which is a division by zero when [n] is. *)
Lemma sample_pagerank_run (corpus : gmap string (gset string)) d n g :
  corpus ≠ ∅ →
  reference_invariant corpus →
  0 ≤ draws g (cursor g) → draws g (cursor g) < 1 →
  ∃ start visited last,
    start ∈ dom corpus
    ∧ random_choice (dict_keys corpus) g = Ok (start, advance g 1)
    ∧ walk corpus d start (advance g 1) visited last
        (advance g (S (Z.to_nat n)))
    ∧ length visited = Z.to_nat n
    ∧ Forall (λ p, p ∈ dom corpus) visited
    ∧ sample_pagerank corpus d n g
      = if decide (n = 0%Z) then Raise ZeroDivisionError
        else Ok (sample_ranks corpus visited n, advance g (S (Z.to_nat n))).
Proof.
  intros Hne Hinv Hu0 Hu1.
  destruct (random_choice_ok (dict_keys corpus) g) as (start & Hstart & Hch);
    [by intros ?%dict_keys_nil|done..|].
  apply elem_of_dict_keys, elem_of_dom in Hstart.
  destruct (sample_loop corpus d Hinv (Z.to_nat n) ((λ _, 0%Z) <$> corpus)
              start (advance g 1))
    as (visited & last & Hwalk & Hlen & Hall & Hlast & Hloop);
    [by rewrite dom_fmap_L|done|].
  rewrite advance_advance in Hwalk, Hloop.
  exists start, visited, last. do 5 (split; [done|]).
  unfold sample_pagerank. rewrite initial_counts. cbn [mbind res_bind].
  rewrite Hch. cbn [mbind res_bind]. rewrite Hloop. cbn [mbind res_bind].
  destruct (decide (n = 0%Z)) as [->|Hn].
  - rewrite final_ranks_zero; [done|].
    intros Hempty. apply Hne. apply map_eq. intros p.
    apply (f_equal (λ m : gmap string Z, m !! p)) in Hempty.
    rewrite map_lookup_imap, lookup_fmap, !lookup_empty in *.
    by destruct (corpus !! p).
  - rewrite final_ranks by done. cbn [mbind res_bind]. do 2 f_equal.
    apply map_eq. intros p.
    rewrite lookup_fmap, map_lookup_imap, lookup_fmap, lookup_sample_ranks.
    destruct (corpus !! p); [|done]. simpl. by do 2 f_equal.
Qed.

Lemma sum_sample_ranks (corpus : gmap string (gset string)) visited n :
  n ≠ 0%Z →
  Forall (λ p, p ∈ dom corpus) visited →
  Z.of_nat (length visited) = n →
  sumQc (dict_values (sample_ranks corpus visited n)) = 1.
Proof.
  intros Hn Hall Hlen. rewrite sumQc_dict_values.
  unfold nodes. rewrite dom_sample_ranks.
  rewrite (sum_over_ext _ (λ p, / Qc_of_Z n * Qc_of_Z (visits visited p))).
  2:{ intros p [v Hp]%elem_of_elements%elem_of_dom. unfold rank_of.
      rewrite lookup_sample_ranks, Hp. simpl. unfold Qcdiv. ring. }
  rewrite sum_over_scale, sum_visits, Hlen by done.
  apply Qcmult_inv_l. rewrite <- Z2Qc_inj_0. by intros ?%Z2Qc_inj.
Qed.

Lemma transition_model_inv (corpus : gmap string (gset string)) page d probs :
  reference_invariant corpus →
  transition_model corpus page d = Ok probs →
  ∃ links, corpus !! page = Some links
           ∧ links ⊆ dom corpus
           ∧ probs = transition_dist corpus links d.
Proof.
  intros Hinv Htm. destruct (corpus !! page) as [links|] eqn:Hpage.
  - exists links. assert (links ⊆ dom corpus) as Hsub by (by eapply Hinv).
    rewrite (transition_model_ok _ _ _ _ Hpage Hsub) in Htm.
    by injection Htm as <-.
  - unfold transition_model, getitem in Htm. by rewrite Hpage in Htm.
Qed.

(** The start page is drawn uniformly: the draws that select a given page
    form an interval of length [1/N]. *)
Lemma start_uniform (corpus : gmap string (gset string)) p :
  p ∈ dom corpus →
  ∃ a : Qc, ∀ g, rng_ok g →
    random_choice (dict_keys corpus) g = Ok (p, advance g 1)
    ↔ a ≤ draws g (cursor g)
      ∧ draws g (cursor g) < a + 1 / Qc_of_nat (size corpus).
Proof.
  intros Hp%elem_of_dom%elem_of_dict_keys%list_elem_of_lookup_1.
  destruct Hp as [i Hi].
  exists (Qc_of_nat i / Qc_of_nat (size corpus)). intros g Hg.
  rewrite <- (length_dict_keys corpus).
  apply random_choice_index; [apply Hg|done|apply dict_keys_NoDup].
Qed.

(** The next page is drawn with the weight the transition model gives it:
    the draws that select [q] form an interval of length [w]. *)
Lemma next_weighted (corpus : gmap string (gset string)) d page probs q w :
  reference_invariant corpus →
  0 ≤ d → d ≤ 1 →
  transition_model corpus page d = Ok probs →
  probs !! q = Some w →
  ∃ a : Qc, ∀ g, rng_ok g →
    random_choices (dict_keys probs) (dict_values probs) g
    = Ok (q, advance g 1)
    ↔ a ≤ draws g (cursor g) ∧ draws g (cursor g) < a + w.
Proof.
  intros Hinv Hd0 Hd1 Htm Hq.
  destruct (transition_model_inv _ _ _ _ Hinv Htm) as (links & Hpage & Hsub & ->).
  apply elem_of_map_to_list, list_elem_of_lookup_1 in Hq as [j Hj].
  exists (sumQc (take j (dict_values (transition_dist corpus links d)))).
  intros g Hg. apply random_choices_index.
  - apply dict_keys_NoDup.
  - apply length_dict_values.
  - apply Forall_fmap, Forall_forall. intros [q' w'] Hin%elem_of_map_to_list.
    simpl. rewrite lookup_transition_dist in Hin.
    destruct (corpus !! q'); [|done]. injection Hin as <-.
    apply transition_weight_nonneg; [|done..].
    apply Qc_of_nat_pos. destruct (size corpus) eqn:E; [|lia].
    apply map_size_empty_inv in E. by rewrite E, lookup_empty in Hpage.
  - by eapply sum_transition_dist.
  - apply Hg.
  - apply Hg.
  - unfold dict_keys. by rewrite list_lookup_fmap, Hj.
  - unfold dict_values. by rewrite list_lookup_fmap, Hj.
Qed.

(** C3, as stated, fails on the floats that the code returns.  On the ring
    of four pages [a → b → c → d → a], at damping factor [1] and with
    [n = 35], the weights are exactly [0.0] and [1.0], so that the walk goes
    round the ring whatever is drawn: three pages are visited [9] times and
    one page [8] times, and the counters add up to [35].  The values
    returned are the floats [9/35] (three times) and [8/35].  Added up from
    left to right they never give [1.0], in whatever order they are taken;
    and the sum of the four numbers without rounding is below [1] by more
    than [2^-54], half the distance from [1.0] to the float before it, so
    that it does not round to [1.0] either. *)
Lemma sample_pagerank_floats_miss_one :
  g_ring ≠ ∅
  ∧ reference_invariant g_ring
  ∧ (PrimFloat.leb (float_of_int 0) (float_of_int 1) = true
     ∧ PrimFloat.leb (float_of_int 1) (float_of_int 1) = true)
  ∧ (0 < 35)%Z
  ∧ ∃ (ranks : gmap string float) (g' : rng64),
      sample_pagerank64 g_ring (float_of_int 1) 35 g64 = Ok (ranks, g')
      ∧ dom ranks = dom g_ring
      ∧ dict_values ranks
        ≡ₚ [int_div64 9 35; int_div64 9 35; int_div64 9 35; int_div64 8 35]
      ∧ (∀ l, l ≡ₚ dict_values ranks →
           PrimFloat.eqb (float_sum l) (float_of_int 1) = false)
      ∧ ∃ q : Q, exact_sum (dict_values ranks) = Some q
                 ∧ (q < 1 - 2 ^ (-54))%Q.
Proof.
  split; [compute_done|]. split; [compute_done|].
  split; [by vm_compute|]. split; [lia|].
  eexists _, _. split; [vm_compute; reflexivity|].
  split; [compute_done|]. split; [|split].
  - vm_compute. do 2 apply perm_skip. apply perm_swap.
  - intros l Hl. symmetry in Hl. apply permutations_Permutation in Hl.
    revert l Hl.
    apply (proj1 (Forall_forall
             (λ l, PrimFloat.eqb (float_sum l) (float_of_int 1) = false) _)).
    vm_compute. repeat (constructor; [vm_compute; reflexivity|]). constructor.
  - eexists. split; [vm_compute; reflexivity|]. by vm_compute.
Qed.

(** C3, amended.  On a non-empty graph that keeps its references inside
    the node set, for a damping factor of [[0,1]], a sample count [n > 0]
    and a generator whose draws lie in [[0,1)]: the start page is drawn
    uniformly (each page is selected by an interval of draws of length
    [1/N]); the loop runs exactly [n] times, each time counting the
    current page and drawing the next page from its transition model, a
    page of weight [w] being selected by an interval of draws of length
    [w]; the result gives every page its number of visits divided by [n];
    the numbers of visits add up to exactly [n], so that the quotients
    add up to exactly [1] over the rationals (the floats that the code
    returns for them need not, as shown above). *)
Theorem sample_pagerank_spec
    (corpus : gmap string (gset string)) (d : Qc) (n : Z) (g : rng) :
  corpus ≠ ∅ →
  reference_invariant corpus →
  0 ≤ d → d ≤ 1 →
  (0 < n)%Z →
  rng_ok g →
  (∀ p, p ∈ dom corpus →
     ∃ a : Qc, ∀ g0, rng_ok g0 →
       random_choice (dict_keys corpus) g0 = Ok (p, advance g0 1)
       ↔ a ≤ draws g0 (cursor g0)
         ∧ draws g0 (cursor g0) < a + 1 / Qc_of_nat (size corpus))
  ∧ (∀ page probs q w,
       transition_model corpus page d = Ok probs →
       probs !! q = Some w →
       ∃ a : Qc, ∀ g0, rng_ok g0 →
         random_choices (dict_keys probs) (dict_values probs) g0
         = Ok (q, advance g0 1)
         ↔ a ≤ draws g0 (cursor g0) ∧ draws g0 (cursor g0) < a + w)
  ∧ ∃ (start : string) (visited : list string) (last : string)
      (rank : gmap string Qc),
      random_choice (dict_keys corpus) g = Ok (start, advance g 1)
      ∧ walk corpus d start (advance g 1) visited last
          (advance g (S (Z.to_nat n)))
      ∧ Z.of_nat (length visited) = n
      ∧ sample_pagerank corpus d n g = Ok (rank, advance g (S (Z.to_nat n)))
      ∧ dom rank = dom corpus
      ∧ (∀ p, p ∈ dom corpus →
           rank !! p = Some (Qc_of_Z (visits visited p) / Qc_of_Z n))
      ∧ sum_over (λ p, Qc_of_Z (visits visited p)) (nodes corpus) = Qc_of_Z n
      ∧ sum_over (λ p, Qc_of_Z (visits visited p) / Qc_of_Z n) (nodes corpus)
        = 1.
Proof.
  intros Hne Hinv Hd0 Hd1 Hn Hg.
  split; [intros p Hp; by apply start_uniform|].
  split; [intros page probs q w; by apply next_weighted|].
  destruct (sample_pagerank_run corpus d n g Hne Hinv)
    as (start & visited & last & Hstart & Hch & Hwalk & Hlen & Hall & Hrun);
    [apply Hg..|].
  rewrite decide_False in Hrun by lia.
  assert (Z.of_nat (length visited) = n) as Hlen' by lia.
  exists start, visited, last, (sample_ranks corpus visited n).
  do 4 (split; [done|]). split; [apply dom_sample_ranks|]. split; [|split].
  - intros p [v Hp]%elem_of_dom. by rewrite lookup_sample_ranks, Hp.
  - unfold nodes. by rewrite sum_visits, Hlen'.
  - rewrite (sum_over_ext _ (λ p, / Qc_of_Z n * Qc_of_Z (visits visited p)))
      by (intros p _; unfold Qcdiv; ring).
    unfold nodes. rewrite sum_over_scale, sum_visits, Hlen' by done.
    apply Qcmult_inv_l. rewrite <- Z2Qc_inj_0. intros ?%Z2Qc_inj. lia.
Qed.

Lemma g0_ok : rng_ok g0.
Proof. intros i. split; [done|by vm_compute]. Qed.

Lemma sample_pagerank_spec_witness :
  ∃ (visited : list string) (rank : gmap string Qc),
    Z.of_nat (length visited) = 10%Z
    ∧ sample_pagerank g_ab d85 10 g0 = Ok (rank, advance g0 11)
    ∧ sum_over (λ p, Qc_of_Z (visits visited p) / Qc_of_Z 10) (nodes g_ab) = 1.
Proof.
  assert (g_ab ≠ ∅) as H1 by compute_done.
  assert (reference_invariant g_ab) as H2 by compute_done.
  assert (0 ≤ d85) as H3 by (vm_compute; discriminate).
  assert (d85 ≤ 1) as H4 by (vm_compute; discriminate).
  assert (0 < 10)%Z as H5 by lia.
  destruct (sample_pagerank_spec g_ab d85 10 g0 H1 H2 H3 H4 H5 g0_ok)
    as (_ & _ & start & visited & last & rank
        & _ & _ & Hlen & Hrun & _ & _ & _ & Hsum).
  exists visited, rank. split; [exact Hlen|]. split; [exact Hrun|exact Hsum].
Defined.

(** ** The caller's graph *)

Lemma normalize_insert_dangling (corpus : gmap string (gset string)) p :
  corpus !! p = Some ∅ →
  normalize (<[p := dom corpus]> corpus) = normalize corpus.
Proof.
  intros Hp. apply map_eq. intros q. rewrite !lookup_normalize.
  assert (dom (<[p := dom corpus]> corpus) = dom corpus) as ->.
  { rewrite dom_insert_L. apply elem_of_dom_2 in Hp. set_solver. }
  destruct (decide (q = p)) as [->|Hne].
  - rewrite lookup_insert_eq, Hp. simpl. f_equal.
    by destruct (decide (dom corpus = ∅)).
  - by rewrite lookup_insert_ne.
Qed.

Lemma normalize_idemp (corpus : gmap string (gset string)) :
  normalize (normalize corpus) = normalize corpus.
Proof.
  apply map_eq. intros q.
  rewrite lookup_normalize, dom_normalize, lookup_normalize.
  destruct (corpus !! q) as [links|]; [|done]. simpl. f_equal.
  destruct (decide (links = ∅)) as [->|Hne].
  - by destruct (decide (dom corpus = ∅)).
  - by rewrite decide_False.
Qed.

Lemma iterate_pagerank_graph_normalized fuel
    (corpus : gmap string (gset string)) d c' r :
  iterate_pagerank fuel corpus d = Ok (c', r) → c' = normalize corpus.
Proof.
  rewrite iterate_pagerank_unfold. intros Hret.
  destruct (while_not_converge _ _ _ _ _) as [r'| |]; [|done..].
  by injection Hret as <- <-.
Qed.

(** C4, as stated, fails: on the graph [a → b] where [b] has no links,
    the call returns and leaves [b] with the outbound set [{a, b}] in the
    caller's dict. *)
Lemma iterate_pagerank_rewrites_the_graph :
  ∃ c' r,
    iterate_pagerank 100 g_ab d85 = Ok (c', r)
    ∧ g_ab !! "b" = Some ∅
    ∧ c' !! "b" = Some {["a"; "b"]}.
Proof.
  destruct (iterate_pagerank_cases 100 g_ab d85) as [Hout|(k & _ & _ & _ & Hret)].
  - exfalso. vm_compute in Hout. discriminate.
  - eexists _, _. split; [exact Hret|]. split; [done|]. by vm_compute.
Qed.

(** C4, amended.  The solver normalizes the caller's graph in place: when
    the call returns, the graph has the same pages, every page that had no
    links has the set of all pages as its outbound set, and the outbound
    set of every other page is what it was. *)
Theorem iterate_pagerank_graph_after fuel (corpus : gmap string (gset string))
    d c' r :
  iterate_pagerank fuel corpus d = Ok (c', r) →
  dom c' = dom corpus
  ∧ ∀ p links, corpus !! p = Some links →
      c' !! p = Some (if decide (links = ∅) then dom corpus else links).
Proof.
  rewrite iterate_pagerank_unfold. intros Hret.
  destruct (while_not_converge _ _ _ _ _) as [r'| |]; [|done..].
  injection Hret as <- <-. split; [apply dom_normalize|].
  intros p links Hp. by rewrite lookup_normalize, Hp.
Qed.

Lemma iterate_pagerank_graph_after_witness :
  ∃ c' r,
    iterate_pagerank 100 g_ab d85 = Ok (c', r)
    ∧ dom c' = dom g_ab
    ∧ ∀ p links, g_ab !! p = Some links →
        c' !! p = Some (if decide (links = ∅) then dom g_ab else links).
Proof.
  destruct (iterate_pagerank 100 g_ab d85) as [[c' r]| |] eqn:Hret.
  - exists c', r. split; [reflexivity|].
    exact (iterate_pagerank_graph_after 100 g_ab d85 c' r Hret).
  - vm_compute in Hret. discriminate.
  - vm_compute in Hret. discriminate.
Defined.

(** C7. When [p] is a page of the graph without links, the solver answers
    on the graph exactly what it answers on the graph in which the
    outbound set of [p] is the set of all pages: the same ranks, after the
    same number of sweeps, for every damping factor. *)
Theorem iterate_pagerank_dangling_equiv fuel
    (corpus : gmap string (gset string)) (p : string) (d : Qc) :
  corpus !! p = Some ∅ →
  iterate_pagerank fuel corpus d
  = iterate_pagerank fuel (<[p := dom corpus]> corpus) d.
Proof.
  intros Hp. rewrite !iterate_pagerank_unfold.
  by rewrite normalize_insert_dangling.
Qed.

Lemma iterate_pagerank_dangling_equiv_witness :
  iterate_pagerank 100 g_ab d85
  = iterate_pagerank 100 (<["b" := dom g_ab]> g_ab) d85.
Proof.
  apply (iterate_pagerank_dangling_equiv 100 g_ab "b" d85). reflexivity.
Defined.

(** ** Key sets and signs of the results *)

Lemma Qcdiv_nonneg x y : 0 ≤ x → 0 ≤ y → 0 ≤ x / y.
Proof.
  intros Hx Hy. unfold Qcdiv. apply Qcmult_nonneg_nonneg; [done|].
  destruct (decide (y = 0)) as [->|Hne]; [done|].
  apply Qclt_le_weak, Qcinv_pos. apply Qcle_lt_or_eq in Hy as [?|?]; [done|].
  by destruct Hne.
Qed.

Lemma rank_seq_nonneg (corpus : gmap string (gset string)) d k p :
  0 ≤ d → d ≤ 1 → 0 ≤ rank_of (rank_seq corpus d k) p.
Proof.
  intros Hd0 Hd1. revert p. induction k as [|k IH]; intros p.
  - unfold rank_of. simpl. rewrite lookup_fmap.
    destruct (corpus !! p); simpl; [|done].
    apply Qcdiv_nonneg; [done|apply Qc_of_nat_nonneg].
  - unfold rank_of. cbn [rank_seq]. rewrite lookup_next_ranks.
    destruct (corpus !! p); simpl; [|done]. unfold next_rank.
    apply Qcplus_nonneg_nonneg.
    + apply Qcdiv_nonneg; [qc_lra|apply Qc_of_nat_nonneg].
    + apply Qcmult_nonneg_nonneg; [done|]. apply sum_over_nonneg.
      intros q _. apply Qcdiv_nonneg; [apply IH|apply Qc_of_nat_nonneg].
Qed.

Lemma sample_ranks_nonneg (corpus : gmap string (gset string)) visited n p v :
  (0 < n)%Z → sample_ranks corpus visited n !! p = Some v → 0 ≤ v.
Proof.
  intros Hn. rewrite lookup_sample_ranks.
  destruct (corpus !! p); [|done]. intros [= <-].
  apply Qcdiv_nonneg; rewrite <- Z2Qc_inj_0.
  - apply (proj1 (Z2Qc_inj_le _ _)), visits_nonneg.
  - apply (proj1 (Z2Qc_inj_le _ _)). lia.
Qed.




(** ** The graph with a single page and no link *)

Section single_page.
Context (A : string) (d : Qc).

Let lone : gmap string (gset string) := {[A := ∅]}.
Let looped : gmap string (gset string) := {[A := {[A]}]}.

Lemma normalize_lone : normalize lone = looped.
Proof.
  unfold normalize, lone, looped. rewrite map_fmap_singleton, dom_singleton_L.
  by rewrite decide_True.
Qed.

Lemma len_looped : len looped = 1.
Proof.
  unfold len, looped. rewrite map_size_singleton. apply Z2Qc_inj_1.
Qed.

Lemma nodes_looped : nodes looped = A :: [].
Proof. unfold nodes, looped. by rewrite dom_singleton_L, elements_singleton. Qed.

Lemma next_rank_looped r :
  rank_of r A = 1 → next_rank looped d r A = 1.
Proof.
  intros Hr. unfold next_rank, incoming. rewrite len_looped, nodes_looped.
  assert (out_of looped A = {[A]}) as Hout
    by (unfold out_of, looped; by rewrite lookup_singleton_eq).
  rewrite filter_cons, decide_True by (rewrite Hout; set_solver).
  rewrite filter_nil. unfold sum_over. simpl. rewrite Hr, Hout.
  unfold set_len. rewrite size_singleton.
  change (Qc_of_nat 1) with (Qc_of_Z 1). rewrite Z2Qc_inj_1. by field.
Qed.

Lemma rank_seq_looped k : rank_seq looped d k = {[A := 1]}.
Proof.
  induction k as [|k IH].
  - simpl. rewrite len_looped. unfold looped. rewrite map_fmap_singleton.
    by f_equal.
  - cbn [rank_seq]. rewrite IH. apply map_eq. intros p.
    rewrite lookup_next_ranks. unfold looped at 2.
    destruct (decide (p = A)) as [->|Hne].
    + rewrite !lookup_singleton_eq. simpl. f_equal. apply next_rank_looped.
      unfold rank_of. by rewrite lookup_singleton_eq.
    + by rewrite !lookup_singleton_ne.
Qed.

Lemma sweep_change_looped k : sweep_change looped d k = 0.
Proof.
  unfold sweep_change. rewrite !rank_seq_looped, nodes_looped.
  unfold max_change, rank_of. simpl. rewrite lookup_singleton_eq. simpl.
  replace (1 - 1) with 0 by ring. done.
Qed.

Lemma iterate_pagerank_lone fuel :
  iterate_pagerank (S fuel) lone d = Ok (looped, {[A := 1]}).
Proof.
  rewrite (iterate_pagerank_hit (S fuel) lone d 0).
  - by rewrite normalize_lone, rank_seq_looped.
  - intros j Hj. lia.
  - by rewrite normalize_lone, sweep_change_looped.
  - lia.
Qed.

Lemma visits_lone visited :
  Forall (λ p, p ∈ dom lone) visited →
  visits visited A = Z.of_nat (length visited).
Proof.
  induction 1 as [|x visited Hx _ IH]; [done|].
  rewrite visits_cons, IH. unfold lone in Hx.
  rewrite dom_singleton_L, elem_of_singleton in Hx.
  rewrite decide_True by done. simpl length. lia.
Qed.

Lemma sample_pagerank_lone n g :
  (0 < n)%Z → rng_ok g →
  sample_pagerank lone d n g = Ok ({[A := 1]}, advance g (S (Z.to_nat n))).
Proof.
  intros Hn Hg.
  destruct (sample_pagerank_run lone d n g)
    as (start & visited & last & _ & _ & _ & Hlen & Hall & Hrun).
  - unfold lone. apply insert_non_empty.
  - intros p links. unfold lone.
    intros [-> <-]%lookup_singleton_Some. set_solver.
  - apply Hg.
  - apply Hg.
  - rewrite decide_False in Hrun by lia. rewrite Hrun. do 2 f_equal.
    apply map_eq. intros p. rewrite lookup_sample_ranks. unfold lone at 1.
    destruct (decide (p = A)) as [->|Hne].
    + rewrite !lookup_singleton_eq. simpl. f_equal.
      rewrite visits_lone, Hlen, Z2Nat.id by (done || lia).
      field. rewrite <- Z2Qc_inj_0. intros ?%Z2Qc_inj. lia.
    + by rewrite !lookup_singleton_ne.
Qed.
End single_page.

(** C9. On the graph with the single page [A] and no link, the sampler
    returns [rank[A] = 1] for every sample count [n > 0], every damping
    factor and every generator whose draws lie in [[0,1)], and the solver
    returns [rank[A] = 1] after its first sweep, for every damping
    factor. *)
Theorem single_page_rank_one (A : string) (d : Qc) :
  (∀ n g, (0 < n)%Z → rng_ok g →
     ∃ g', sample_pagerank {[A := ∅]} d n g = Ok ({[A := 1]}, g'))
  ∧ (∀ fuel, ∃ c',
       iterate_pagerank (S fuel) {[A := ∅]} d = Ok (c', {[A := 1]})).
Proof.
  split.
  - intros n g Hn Hg. eexists. by apply sample_pagerank_lone.
  - intros fuel. eexists. apply iterate_pagerank_lone.
Qed.

Lemma single_page_rank_one_witness :
  (∃ g', sample_pagerank {["A" := ∅]} d85 10 g0 = Ok ({["A" := 1]}, g'))
  ∧ (∃ c', iterate_pagerank 1 {["A" := ∅]} d85 = Ok (c', {["A" := 1]})).
Proof.
  destruct (single_page_rank_one "A" d85) as [Hs Hi].
  split; [apply (Hs 10%Z g0); [lia|exact g0_ok]|apply (Hi O)].
Defined.

(** ** Reproducibility *)

Lemma same_draws_0 k g1 g2 :
  same_draws (S k) g1 g2 → draws g1 (cursor g1) = draws g2 (cursor g2).
Proof. intros H. specialize (H O). rewrite !Nat.add_0_r in H. apply H. lia. Qed.

Lemma same_draws_advance k g1 g2 :
  same_draws (S k) g1 g2 → same_draws k (advance g1 1) (advance g2 1).
Proof.
  intros H i Hi. unfold advance. simpl.
  rewrite <- !Nat.add_assoc. apply H. lia.
Qed.

Lemma same_outcome_fst {X : Type} g1 g2 k (r1 r2 : res (X * rng)) :
  same_outcome g1 g2 k r1 r2 → fst <$> r1 = fst <$> r2.
Proof.
  destruct r1 as [[x1 g1']| |], r2 as [[x2 g2']| |]; simpl; try done.
  - by intros (-> & _ & _).
  - by intros ->.
Qed.

Lemma random_choice_same {A : Type} (seq : list A) g1 g2 :
  same_draws 1 g1 g2 →
  same_outcome g1 g2 1 (random_choice seq g1) (random_choice seq g2).
Proof.
  intros Hu%same_draws_0. unfold random_choice.
  destruct seq as [|y seq']; [done|]. cbn [random]. rewrite Hu.
  destruct (_ !! _); [|done]. simpl. by rewrite <- !random_advance.
Qed.

Lemma random_choices_same {A : Type} (population : list A) weights g1 g2 :
  same_draws 1 g1 g2 →
  same_outcome g1 g2 1 (random_choices population weights g1)
    (random_choices population weights g2).
Proof.
  intros Hu%same_draws_0. unfold random_choices.
  destruct (decide (_ = _)); [|done].
  destruct (last _) as [total|]; [|done].
  destruct (decide (total ≤ 0)); [done|]. cbn [random]. rewrite Hu.
  destruct (_ !! _); [|done]. simpl. by rewrite <- !random_advance.
Qed.

Lemma sample_step_same corpus d counts page g1 g2 :
  same_draws 1 g1 g2 →
  same_outcome g1 g2 1 (sample_step corpus d (counts, page, g1))
    (sample_step corpus d (counts, page, g2)).
Proof.
  intros Hu. unfold sample_step.
  destruct (getitem counts page) as [c| |]; [|done..]. cbn [mbind res_bind].
  destruct (transition_model corpus page d) as [probs| |]; [|done..].
  cbn [mbind res_bind].
  pose proof (random_choices_same (dict_keys probs) (dict_values probs)
                g1 g2 Hu) as Hch.
  destruct (random_choices _ _ g1) as [[p1 g1']| |],
           (random_choices _ _ g2) as [[p2 g2']| |]; simpl in *; try done.
  by destruct Hch as (-> & -> & ->).
Qed.

Lemma sample_loop_same corpus d n : ∀ counts page g1 g2,
  same_draws n g1 g2 →
  same_outcome g1 g2 n
    (repeat_n n (counts, page, g1) (sample_step corpus d))
    (repeat_n n (counts, page, g2) (sample_step corpus d)).
Proof.
  induction n as [|n IH]; intros counts page g1 g2 Hsame.
  - simpl. by rewrite !advance_0.
  - cbn [repeat_n].
    assert (same_draws 1 g1 g2) as H1 by (intros i Hi; apply Hsame; lia).
    pose proof (sample_step_same corpus d counts page g1 g2 H1) as Hstep.
    destruct (sample_step corpus d (counts, page, g1)) as [[[c1 p1] g1']| |],
             (sample_step corpus d (counts, page, g2)) as [[[c2 p2] g2']| |];
      simpl in Hstep; try done.
    destruct Hstep as ([= -> ->] & -> & ->). cbn [mbind res_bind].
    specialize (IH c2 p2 (advance g1 1) (advance g2 1)
                  (same_draws_advance _ _ _ Hsame)).
    destruct (repeat_n n (c2, p2, advance g1 1) _) as [[x1 h1]| |],
             (repeat_n n (c2, p2, advance g2 1) _) as [[x2 h2]| |];
      simpl in *; try done.
    destruct IH as (-> & -> & ->). by rewrite !advance_advance.
Qed.

Lemma sample_pagerank_same corpus d n g1 g2 :
  same_draws (S (Z.to_nat n)) g1 g2 →
  fst <$> sample_pagerank corpus d n g1 = fst <$> sample_pagerank corpus d n g2.
Proof.
  intros Hsame. unfold sample_pagerank. rewrite initial_counts.
  cbn [mbind res_bind].
  assert (same_draws 1 g1 g2) as H1 by (intros i Hi; apply Hsame; lia).
  pose proof (random_choice_same (dict_keys corpus) g1 g2 H1) as Hch.
  destruct (random_choice _ g1) as [[p1 g1']| |],
           (random_choice _ g2) as [[p2 g2']| |]; simpl in Hch; try done;
    [|by subst].
  destruct Hch as (-> & -> & ->). cbn [mbind res_bind].
  pose proof (sample_loop_same corpus d (Z.to_nat n) ((λ _, 0%Z) <$> corpus) p2
                (advance g1 1) (advance g2 1)
                (same_draws_advance _ _ _ Hsame)) as Hloop.
  destruct (repeat_n _ (_, _, advance g1 1) _) as [[[c1 q1] h1]| |],
           (repeat_n _ (_, _, advance g2 1) _) as [[[c2 q2] h2]| |];
    simpl in Hloop; try done; [|by subst].
  destruct Hloop as ([= -> ->] & -> & ->). cbn [mbind res_bind].
  by destruct (for_each (map_to_list c2) _ _).
Qed.

(** C8. The solver is a function of the graph and the damping factor,
    and a second call on the dict that a first call has rewritten answers
    what the first call answered and changes the dict no more.  The
    sampler depends on the generator only through the [n + 1] numbers it
    draws: from two generators that give the same next [n + 1] draws it
    computes the same result (the same ranks, or the same exception). *)
Theorem estimators_reproducible
    (corpus : gmap string (gset string)) (d : Qc) :
  (∀ fuel c1 r1,
     iterate_pagerank fuel corpus d = Ok (c1, r1) →
     iterate_pagerank fuel c1 d = Ok (c1, r1))
  ∧ (∀ n g1 g2,
       same_draws (S (Z.to_nat n)) g1 g2 →
       fst <$> sample_pagerank corpus d n g1
       = fst <$> sample_pagerank corpus d n g2).
Proof.
  split.
  - intros fuel c1 r1 Hret.
    pose proof (iterate_pagerank_graph_normalized fuel corpus d c1 r1 Hret)
      as ->.
    rewrite iterate_pagerank_unfold in Hret.
    by rewrite iterate_pagerank_unfold, normalize_idemp.
  - intros n g1 g2. apply sample_pagerank_same.
Qed.

Lemma estimators_reproducible_witness :
  (∃ c1 r1,
     iterate_pagerank 100 g_ab d85 = Ok (c1, r1)
     ∧ iterate_pagerank 100 c1 d85 = Ok (c1, r1))
  ∧ fst <$> sample_pagerank g_ab d85 10 g0
    = fst <$> sample_pagerank g_ab d85 10 (Rng (λ _, 0) 5).
Proof.
  destruct (estimators_reproducible g_ab d85) as [Hi Hs]. split.
  - destruct (iterate_pagerank 100 g_ab d85) as [[c1 r1]| |] eqn:Hret.
    + exists c1, r1. split; [reflexivity|exact (Hi 100%nat c1 r1 Hret)].
    + vm_compute in Hret. discriminate.
    + vm_compute in Hret. discriminate.
  - apply Hs. intros i _. reflexivity.
Defined.

(** ** Inputs outside the contract *)







(** * Further properties of the program *)

(** ** [transition_model]: when it fails *)

Lemma getitem_raise {V : Type} (m : gmap string V) k :
  m !! k = None → getitem m k = Raise (KeyError k).
Proof. intros H. unfold getitem. by rewrite H. Qed.

(** [for link in links: prob[link] += inc], when some link is not a key:
    the loop stops with a [KeyError] for a link that is not a key. *)
Lemma for_each_add_links_raise (l : list string) (inc : Qc) (c : res Qc)
    (prob : gmap string Qc) :
  c = Ok inc →
  (∃ x, x ∈ l ∧ prob !! x = None) →
  ∃ x, x ∈ l ∧ prob !! x = None
       ∧ for_each l prob (λ prob link,
           old ← getitem prob link; v ← c; Ok (<[link := old + v]> prob))
         = Raise (KeyError x).
Proof.
  intros ->. revert prob. induction l as [|y l IH]; intros prob (x & Hx & Hnone).
  - by apply not_elem_of_nil in Hx.
  - destruct (prob !! y) as [old|] eqn:Hy.
    + assert (x ∈ l) as Hxl.
      { apply elem_of_cons in Hx as [->|?]; [congruence|done]. }
      destruct (IH (<[y := old + inc]> prob)) as (z & Hz & Hzn & Hres).
      { exists x. split; [done|]. rewrite lookup_insert_ne; [done|congruence]. }
      exists z. split; [by right|].
      assert (z ≠ y) as Hne by (intros ->; by rewrite lookup_insert_eq in Hzn).
      rewrite lookup_insert_ne in Hzn by done. split; [done|].
      cbn [for_each]. rewrite (getitem_ok _ _ _ Hy). cbn [mbind res_bind].
      exact Hres.
    + exists y. split; [left|]. split; [done|].
      cbn [for_each]. by rewrite (getitem_raise _ _ Hy).
Qed.

(** X1.  [transition_model] returns a distribution exactly when the page
    and all the pages it links to are keys of the corpus, and then it is
    the distribution of [transition_dist]; otherwise it raises a
    [KeyError], naming the page, or a link that is not a key.  It never
    divides by zero. *)
Theorem transition_model_outcome
    (corpus : gmap string (gset string)) (page : string) (d : Qc) :
  match transition_model corpus page d with
  | Ok prob =>
      ∃ links, corpus !! page = Some links ∧ links ⊆ dom corpus
               ∧ prob = transition_dist corpus links d
  | Raise e =>
      (corpus !! page = None ∧ e = KeyError page)
      ∨ (∃ links link, corpus !! page = Some links ∧ link ∈ links
                       ∧ (link ∉ dom corpus) ∧ e = KeyError link)
  | OutOfFuel => False
  end.
Proof.
  destruct (corpus !! page) as [links|] eqn:Hpage.
  2:{ unfold transition_model, getitem. rewrite Hpage. by left. }
  destruct (decide (Forall (λ x, x ∈ dom corpus) (elements links)))
    as [Hall|Hex].
  { assert (links ⊆ dom corpus) as Hsub.
    { intros x Hx%elem_of_elements. rewrite Forall_forall in Hall. by apply Hall. }
    rewrite (transition_model_ok _ _ _ _ Hpage Hsub). eauto. }
  apply not_Forall_Exists, Exists_exists in Hex as (bad & Hbad & Hout); [|apply _].
  assert (links ≠ ∅) as Hne by (apply elem_of_elements in Hbad; set_solver).
  assert (len corpus ≠ 0) as HN by (eapply len_ne_0; eauto).
  unfold transition_model. rewrite (getitem_ok _ _ _ Hpage). cbn [mbind res_bind].
  rewrite decide_True by done.
  rewrite (for_each_tabulate (λ _, (1 - d) / len corpus)).
  2:{ intros m' p _. by rewrite py_div_ok. }
  cbn [mbind res_bind]. rewrite tabulate_dict_keys.
  destruct (for_each_add_links_raise (elements links) (d / set_len links)
              (py_div d (set_len links))
              (map_imap (λ p _, Some ((1 - d) / len corpus)) corpus))
    as (link & Hlink & Hnone & ->).
  - apply py_div_ok. by apply set_len_ne_0.
  - exists bad. split; [done|]. rewrite map_lookup_imap.
    apply not_elem_of_dom in Hout. by rewrite Hout.
  - right. exists links, link. split; [done|].
    split; [by apply elem_of_elements|]. split; [|done].
    rewrite map_lookup_imap in Hnone. apply not_elem_of_dom.
    by destruct (corpus !! link).
Qed.


(** ** The sampler: where the surfer can go *)









Lemma visits_le_length visited p : (visits visited p ≤ Z.of_nat (length visited))%Z.
Proof. unfold visits. apply inj_le, length_filter. Qed.

(** X3.  The docstring of [sample_pagerank] promises values between 0
    and 1.  On a non-empty graph whose links stay inside the node set,
    for [n > 0], a damping factor of [[0,1]] and draws of [[0,1)], the
    sampler returns, and every value it returns lies between zero and
    one. *)
Theorem sample_pagerank_values_in_unit
    (corpus : gmap string (gset string)) (d : Qc) (n : Z) (g : rng) :
  corpus ≠ ∅ →
  reference_invariant corpus →
  0 ≤ d → d ≤ 1 →
  (0 < n)%Z →
  rng_ok g →
  ∃ rank g',
    sample_pagerank corpus d n g = Ok (rank, g')
    ∧ ∀ p v, rank !! p = Some v → 0 ≤ v ∧ v ≤ 1.
Proof.
  intros Hne Hinv _ _ Hn Hg.
  destruct (sample_pagerank_run corpus d n g Hne Hinv)
    as (start & visited & last & _ & _ & _ & Hlen & _ & Hrun); [apply Hg..|].
  rewrite decide_False in Hrun by lia.
  exists (sample_ranks corpus visited n), (advance g (S (Z.to_nat n))).
  split; [done|]. intros p v Hp.
  split; [by eapply sample_ranks_nonneg|].
  rewrite lookup_sample_ranks in Hp. destruct (corpus !! p); [|done].
  injection Hp as <-.
  assert (0 < Qc_of_Z n) as Hpos.
  { rewrite <- Z2Qc_inj_0. apply (proj1 (Z2Qc_inj_lt _ _)). lia. }
  apply (Qcmult_le_mono_pos_r _ _ (Qc_of_Z n)); [done|].
  rewrite Qcmult_1_l.
  replace (Qc_of_Z (visits visited p) / Qc_of_Z n * Qc_of_Z n)
    with (Qc_of_Z (visits visited p)).
  - apply (proj1 (Z2Qc_inj_le _ _)). pose proof (visits_le_length visited p). lia.
  - revert Hpos. generalize (Qc_of_Z n). intros N HN%Qclt_not_eq.
    field. by intros ->.
Qed.

Lemma sample_pagerank_values_in_unit_witness :
  ∃ rank g',
    sample_pagerank g_ab d85 10 g0 = Ok (rank, g')
    ∧ ∀ p v, rank !! p = Some v → 0 ≤ v ∧ v ≤ 1.
Proof.
  apply (sample_pagerank_values_in_unit g_ab d85 10 g0);
    [compute_done|compute_done|vm_compute; discriminate|vm_compute; discriminate
    |lia|exact g0_ok].
Defined.

(** ** The sampler over binary64: the counters *)

Lemma sample_step64_inv (corpus : gmap string (gset string)) d
    counts page g counts' page' g' :
  sample_step64 corpus d (counts, page, g) = Ok (counts', page', g') →
  ∃ c, counts !! page = Some c ∧ counts' = <[page := (c + 1)%Z]> counts.
Proof.
  unfold sample_step64, getitem. destruct (counts !! page) as [c|]; [|done].
  cbn [mbind res_bind].
  destruct (transition_model64 corpus page d) as [probs| |]; [|done..].
  cbn [mbind res_bind].
  destruct (random_choices64 _ _ g) as [[q g1]| |]; [|done..].
  cbn [mbind res_bind]. intros [= <- <- <-]. eauto.
Qed.

Lemma sample_loop64 (corpus : gmap string (gset string)) d k :
  ∀ counts page g counts' page' g',
    repeat_n k (counts, page, g) (sample_step64 corpus d)
    = Ok (counts', page', g') →
    ∃ visited,
      length visited = k
      ∧ Forall (λ p, p ∈ dom counts) visited
      ∧ counts' = map_imap (λ p c, Some (c + visits visited p)%Z) counts.
Proof.
  induction k as [|k IH]; intros counts page g counts' page' g' Hloop.
  - injection Hloop as <- <- <-. exists []. split; [done|]. split; [done|].
    apply map_eq. intros p. rewrite map_lookup_imap.
    destruct (counts !! p) as [c|]; [|done]. simpl. f_equal.
    unfold visits. simpl. lia.
  - cbn [repeat_n] in Hloop.
    destruct (sample_step64 corpus d (counts, page, g))
      as [[[counts1 page1] g1]| |] eqn:Hstep; [|done..].
    cbn [mbind res_bind] in Hloop.
    apply sample_step64_inv in Hstep as (c & Hc & ->).
    apply IH in Hloop as (visited & Hlen & Hall & ->).
    assert (dom (<[page := (c + 1)%Z]> counts) = dom counts) as Hdom.
    { rewrite dom_insert_L. apply elem_of_dom_2 in Hc. set_solver. }
    rewrite Hdom in Hall.
    exists (page :: visited). split; [simpl; by rewrite Hlen|].
    split; [constructor; [by eapply elem_of_dom_2|done]|].
    apply map_eq. intros p. rewrite !map_lookup_imap.
    rewrite visits_cons. destruct (decide (page = p)) as [->|Hne].
    + rewrite lookup_insert_eq, Hc. simpl. f_equal. lia.
    + rewrite lookup_insert_ne by done.
      destruct (counts !! p); simpl; [f_equal; lia|done].
Qed.

(** The dict comprehension over [counts.items()], when it raises
    nothing. *)
Lemma for_each_items64 (n : Z) (l : list (string * Z)) :
  ∀ m m' : gmap string float,
    for_each l m (λ pagerank '(page, count),
      v ← py_div64 (float_of_int count) (float_of_int n);
      Ok (<[page := v]> pagerank)) = Ok m' →
    m' = foldl (λ m '(page, count), <[page := int_div64 count n]> m) m l.
Proof.
  unfold py_div64.
  destruct (PrimFloat.eqb (float_of_int n) (float_of_int 0)).
  - intros m m' Hloop. destruct l as [|[p c] l]; [|done].
    by injection Hloop as <-.
  - induction l as [|[p c] l IH]; intros m m' Hloop.
    + by injection Hloop as <-.
    + cbn [for_each foldl mbind res_bind] in *. by apply IH in Hloop.
Qed.

Lemma lookup_foldl_insert {V : Type} (f : Z → V) (l : list (string * Z))
    (m : gmap string V) k :
  NoDup l.*1 →
  foldl (λ m '(page, count), <[page := f count]> m) m l !! k
  = match (list_to_map l : gmap string Z) !! k with
    | Some c => Some (f c)
    | None => m !! k
    end.
Proof.
  revert m. induction l as [|[p c] l IH]; intros m Hnd; [done|].
  apply NoDup_cons in Hnd as [Hp Hnd]. cbn [foldl list_to_map foldr].
  rewrite IH by done. simpl. destruct (decide (k = p)) as [->|Hne].
  - rewrite lookup_insert_eq.
    by rewrite (not_elem_of_list_to_map_1 (M := gmap string) l p), lookup_insert_eq.
  - rewrite (lookup_insert_ne (list_to_map l)) by done.
    destruct (list_to_map l !! k); [done|]. by rewrite lookup_insert_ne.
Qed.

(** X4.  What rounding leaves untouched.  Whenever the sampler over
    binary64 returns, for [n > 0]: it has counted exactly [n] visits, all
    of them on pages of the graph; the keys of the result are the pages;
    the value of a page is its number of visits divided by [n], rounded
    once; and the numbers of visits add up to exactly [n]. *)
Theorem sample_pagerank64_counts
    (corpus : gmap string (gset string)) (d : float) (n : Z) (g : rng64)
    (ranks : gmap string float) (g' : rng64) :
  (0 < n)%Z →
  sample_pagerank64 corpus d n g = Ok (ranks, g') →
  ∃ visited : list string,
    Z.of_nat (length visited) = n
    ∧ Forall (λ p, p ∈ dom corpus) visited
    ∧ dom ranks = dom corpus
    ∧ (∀ p, p ∈ dom corpus →
         ranks !! p = Some (int_div64 (visits visited p) n))
    ∧ sum_over (λ p, Qc_of_Z (visits visited p)) (nodes corpus) = Qc_of_Z n.
Proof.
  intros Hn. unfold sample_pagerank64. rewrite initial_counts.
  cbn [mbind res_bind].
  destruct (random_choice64 (dict_keys corpus) g) as [[start g1]| |];
    [|done..].
  cbn [mbind res_bind].
  destruct (repeat_n (Z.to_nat n) _ _) as [[[counts page] g2]| |] eqn:Hloop;
    [|done..].
  cbn [mbind res_bind].
  destruct (for_each (map_to_list counts) _ _) as [pagerank| |] eqn:Hitems;
    [|done..].
  cbn [mbind res_bind]. intros [= <- <-].
  apply sample_loop64 in Hloop as (visited & Hlen & Hall & ->).
  rewrite dom_fmap_L in Hall.
  apply for_each_items64 in Hitems as ->.
  assert (∀ p, foldl (λ m '(page, count), <[page := int_div64 count n]> m)
                 (∅ : gmap string float)
                 (map_to_list (map_imap (λ p c, Some (c + visits visited p)%Z)
                                 ((λ _, 0%Z) <$> corpus))) !! p
               = (λ _, int_div64 (visits visited p) n) <$> corpus !! p) as Hlook.
  { intros p. rewrite lookup_foldl_insert by apply NoDup_fst_map_to_list.
    rewrite list_to_map_to_list, map_lookup_imap, lookup_fmap, lookup_empty.
    by destruct (corpus !! p). }
  exists visited. split; [lia|]. split; [done|]. split; [|split].
  - apply set_eq. intros p. by rewrite !elem_of_dom, Hlook, fmap_is_Some.
  - intros p [links Hp]%elem_of_dom. by rewrite Hlook, Hp.
  - unfold nodes. rewrite sum_visits by done. f_equal. lia.
Qed.

Lemma sample_pagerank64_counts_witness :
  ∃ (ranks : gmap string float) (visited : list string),
    Z.of_nat (length visited) = 35%Z
    ∧ (∀ p, p ∈ dom g_ring →
         ranks !! p = Some (int_div64 (visits visited p) 35))
    ∧ sum_over (λ p, Qc_of_Z (visits visited p)) (nodes g_ring) = Qc_of_Z 35.
Proof.
  destruct (sample_pagerank64 g_ring (float_of_int 1) 35 g64)
    as [[ranks g']| |] eqn:Hret;
    [|vm_compute in Hret; discriminate..].
  destruct (sample_pagerank64_counts g_ring (float_of_int 1) 35 g64 ranks g')
    as (visited & Hlen & _ & _ & Hval & Hsum); [lia|exact Hret|].
  exists ranks, visited. split; [exact Hlen|]. split; [exact Hval|exact Hsum].
Defined.

(** ** The solver: sums, bounds and accuracy *)

(** Every page of the normalized graph hands out its whole rank when its
    links stay inside the node set. *)
Lemma sum_link_weight_normalize (corpus : gmap string (gset string)) q :
  reference_invariant corpus →
  q ∈ dom corpus →
  sum_over (λ p, link_weight (normalize corpus) q p) (nodes (normalize corpus))
  = 1.
Proof.
  intros Hinv Hq. pose proof Hq as [links Hlinks]%elem_of_dom.
  unfold link_weight, nodes. rewrite sum_over_indicator, dom_normalize.
  assert (out_of (normalize corpus) q ⊆ dom corpus ∧ out_of (normalize corpus) q ≠ ∅)
    as [Hsub Hne].
  { unfold out_of. rewrite lookup_normalize, Hlinks. simpl.
    destruct (decide (links = ∅)) as [->|Hl]; [set_solver|].
    split; [by eapply Hinv|done]. }
  replace (out_of (normalize corpus) q ∩ dom corpus)
    with (out_of (normalize corpus) q) by set_solver.
  apply set_len_ne_0 in Hne. revert Hne. unfold set_len.
  generalize (Qc_of_nat (size (out_of (normalize corpus) q))).
  intros s Hs. by field.
Qed.

Lemma sum_next_rank (corpus : gmap string (gset string)) d r :
  corpus ≠ ∅ →
  reference_invariant corpus →
  sum_over (rank_of r) (nodes (normalize corpus)) = 1 →
  sum_over (next_rank (normalize corpus) d r) (nodes (normalize corpus)) = 1.
Proof.
  intros Hne Hinv Hr.
  rewrite (sum_over_ext _ (λ p, (1 - d) / len (normalize corpus)
             + d * sum_over (λ q, link_weight (normalize corpus) q p * rank_of r q)
                     (nodes (normalize corpus))))
    by (intros; apply next_rank_weights).
  rewrite sum_over_plus, sum_over_const, sum_over_scale, sum_over_swap.
  rewrite (sum_over_ext _ (rank_of r)).
  - rewrite Hr, length_nodes.
    assert (len (normalize corpus) ≠ 0) as HN.
    { rewrite len_normalize. apply Qc_of_nat_ne_0. intros E.
      by apply map_size_empty_inv in E. }
    revert HN. unfold len. generalize (Qc_of_nat (size (normalize corpus))).
    intros N HN. by field.
  - intros q Hq.
    rewrite (sum_over_ext _ (λ p, rank_of r q * link_weight (normalize corpus) q p))
      by (intros; ring).
    rewrite sum_over_scale, sum_link_weight_normalize; [ring|done|].
    apply elem_of_nodes in Hq. by rewrite <- dom_normalize, elem_of_dom.
Qed.

Lemma sum_rank_seq (corpus : gmap string (gset string)) d k :
  corpus ≠ ∅ →
  reference_invariant corpus →
  sum_over (rank_of (rank_seq (normalize corpus) d k)) (nodes (normalize corpus))
  = 1.
Proof.
  intros Hne Hinv. induction k as [|k IH].
  - rewrite (sum_over_ext _ (λ _, 1 / len (normalize corpus))).
    + rewrite sum_over_const, length_nodes.
      assert (len (normalize corpus) ≠ 0) as HN.
      { rewrite len_normalize. apply Qc_of_nat_ne_0. intros E.
        by apply map_size_empty_inv in E. }
      revert HN. unfold len. generalize (Qc_of_nat (size (normalize corpus))).
      intros N HN. by field.
    + intros p [v Hp]%elem_of_nodes. unfold rank_of. simpl.
      by rewrite lookup_fmap, Hp.
  - rewrite <- (sum_next_rank corpus d (rank_seq (normalize corpus) d k) Hne Hinv IH).
    apply sum_over_ext. intros p Hp%elem_of_nodes. cbn [rank_seq].
    by apply rank_of_next_ranks.
Qed.

(** For a damping factor below one the solver returns, given enough
    sweeps. *)
Lemma iterate_pagerank_returns (corpus : gmap string (gset string)) d :
  0 ≤ d → d < 1 →
  ∃ fuel c' r, iterate_pagerank fuel corpus d = Ok (c', r).
Proof.
  intros Hd0 Hlt.
  destruct (sweeps_converge (normalize corpus) d Hd0 Hlt) as (k & Hk & Hfirst).
  exists (S k), (normalize corpus), (rank_seq (normalize corpus) d (S k)).
  by apply iterate_pagerank_hit; [..|lia].
Qed.

(** X5.  The docstring of [iterate_pagerank] asks that the values sum to
    1.  Over exact rational arithmetic they do: on a non-empty graph
    whose links stay inside the node set, the values the solver returns
    add up to exactly one, for every damping factor. *)
Theorem iterate_pagerank_sums_to_one fuel
    (corpus : gmap string (gset string)) (d : Qc) c' r :
  corpus ≠ ∅ →
  reference_invariant corpus →
  iterate_pagerank fuel corpus d = Ok (c', r) →
  sumQc (dict_values r) = 1.
Proof.
  intros Hne Hinv Hret.
  destruct (iterate_pagerank_cases fuel corpus d)
    as [Hout|(k & _ & _ & _ & Hk)]; [by rewrite Hout in Hret|].
  rewrite Hk in Hret.
  assert (r = rank_seq (normalize corpus) d (S k)) as -> by congruence.
  rewrite sumQc_dict_values. unfold nodes at 1. rewrite dom_rank_seq.
  by apply sum_rank_seq.
Qed.

Lemma iterate_pagerank_sums_to_one_witness :
  ∃ fuel c' r, iterate_pagerank fuel g_ab d85 = Ok (c', r)
               ∧ sumQc (dict_values r) = 1.
Proof.
  destruct (iterate_pagerank_returns g_ab d85) as (fuel & c' & r & Hret);
    [vm_compute; discriminate|vm_compute; reflexivity|].
  exists fuel, c', r. split; [exact Hret|].
  apply (iterate_pagerank_sums_to_one fuel g_ab d85 c' r);
    [compute_done|compute_done|exact Hret].
Defined.











Lemma max_change_same ps r : max_change ps r r ≤ tolerance.
Proof.
  apply max_change_le. split; [apply Qclt_le_weak, tolerance_pos|].
  intros p _. replace (rank_of r p - rank_of r p) with 0 by ring. done.
Qed.

(** X9.  With a damping factor of zero the links play no part: the solver
    returns [1/N] for every page after its first sweep. *)
Theorem iterate_pagerank_damping_zero fuel
    (corpus : gmap string (gset string)) :
  iterate_pagerank (S fuel) corpus 0
  = Ok (normalize corpus, (λ _, 1 / len corpus) <$> corpus).
Proof.
  assert (∀ k, rank_seq (normalize corpus) 0 k = (λ _, 1 / len corpus) <$> corpus)
    as Hseq.
  { intros [|k]; [apply rank_seq_0_normalize|].
    cbn [rank_seq]. apply map_eq. intros p.
    rewrite lookup_next_ranks, lookup_normalize, lookup_fmap.
    destruct (corpus !! p); [|done]. simpl. f_equal.
    unfold next_rank. rewrite len_normalize. unfold Qcdiv. ring. }
  rewrite (iterate_pagerank_hit (S fuel) corpus 0 0).
  - by rewrite Hseq.
  - intros j Hj. lia.
  - unfold sweep_change. rewrite !Hseq. apply max_change_same.
  - lia.
Qed.

(** X10.  The random jump gives every page a floor: for a damping factor
    of [[0,1]], every rank the solver returns is at least [(1 - d)/N],
    and it is exactly that for a page no page links to, in a graph where
    every page has a link. *)
Theorem iterate_pagerank_floor fuel
    (corpus : gmap string (gset string)) (d : Qc) c' r p :
  0 ≤ d → d ≤ 1 →
  p ∈ dom corpus →
  iterate_pagerank fuel corpus d = Ok (c', r) →
  ∃ v, r !! p = Some v
       ∧ (1 - d) / Qc_of_nat (size corpus) ≤ v
       ∧ ((∀ q links, corpus !! q = Some links → links ≠ ∅ ∧ p ∉ links) →
          v = (1 - d) / Qc_of_nat (size corpus)).
Proof.
  intros Hd0 Hd1 [lp Hp]%elem_of_dom Hret.
  destruct (iterate_pagerank_cases fuel corpus d)
    as [Hout|(k & _ & _ & _ & Hk)]; [by rewrite Hout in Hret|].
  rewrite Hk in Hret.
  assert (r = rank_seq (normalize corpus) d (S k)) as -> by congruence.
  clear Hret Hk. cbn [rank_seq].
  rewrite lookup_next_ranks, lookup_normalize, Hp. simpl.
  eexists. split; [done|]. unfold next_rank. rewrite len_normalize.
  fold (len corpus). split.
  - assert (0 ≤ d * sum_over
              (λ q, rank_of (rank_seq (normalize corpus) d k) q
                    / set_len (out_of (normalize corpus) q))
              (incoming (normalize corpus) p)) as Hpos.
    { apply Qcmult_nonneg_nonneg; [done|]. apply sum_over_nonneg.
      intros q _. apply Qcdiv_nonneg; [by apply rank_seq_nonneg|].
      apply Qc_of_nat_nonneg. }
    revert Hpos. generalize ((1 - d) / len corpus).
    generalize (d * sum_over
              (λ q, rank_of (rank_seq (normalize corpus) d k) q
                    / set_len (out_of (normalize corpus) q))
              (incoming (normalize corpus) p)).
    intros a b Ha. qc_lra.
  - intros Hno. unfold incoming.
    rewrite sum_over_filter, (sum_over_ext _ (λ _, 0)), sum_over_zero; [ring|].
    intros q [lq Hq]%elem_of_nodes. rewrite decide_False; [done|].
    rewrite lookup_normalize in Hq. unfold out_of.
    rewrite lookup_normalize.
    destruct (corpus !! q) as [links|] eqn:Hlinks; [|done]. simpl.
    destruct (Hno q links Hlinks) as [Hne Hnot]. by rewrite decide_False.
Qed.

Lemma iterate_pagerank_floor_witness :
  ∃ fuel c' r v,
    iterate_pagerank fuel g_cycle d85 = Ok (c', r)
    ∧ r !! "c" = Some v
    ∧ v = (1 - d85) / Qc_of_nat (size g_cycle).
Proof.
  assert (0 ≤ d85) as H3 by (vm_compute; discriminate).
  assert (d85 ≤ 1) as H4 by (vm_compute; discriminate).
  assert (map_Forall (λ _ (links : gset string), links ≠ ∅ ∧ "c" ∉ links)
            g_cycle) as Hall by compute_done.
  destruct (iterate_pagerank_returns g_cycle d85) as (fuel & c' & r & Hret);
    [exact H3|vm_compute; reflexivity|].
  destruct (iterate_pagerank_floor fuel g_cycle d85 c' r "c" H3 H4)
    as (v & Hv & _ & Heq); [compute_done|exact Hret|].
  exists fuel, c', r, v. split; [exact Hret|]. split; [exact Hv|].
  apply Heq. intros q links Hq. exact (Hall q links Hq).
Defined.

Lemma sum_rank_seq_le_1 (corpus : gmap string (gset string)) d k :
  corpus ≠ ∅ →
  0 ≤ d → d ≤ 1 →
  sum_over (rank_of (rank_seq corpus d k)) (nodes corpus) ≤ 1.
Proof.
  intros Hne Hd0 Hd1.
  assert (len corpus ≠ 0) as HN.
  { apply Qc_of_nat_ne_0. intros E. by apply map_size_empty_inv in E. }
  induction k as [|k IH].
  - rewrite (sum_over_ext _ (λ _, 1 / len corpus)).
    + rewrite sum_over_const, length_nodes. apply Qcle_refl_eq.
      revert HN. unfold len. generalize (Qc_of_nat (size corpus)).
      intros N HN. by field.
    + intros p [v Hp]%elem_of_nodes. unfold rank_of. simpl.
      by rewrite lookup_fmap, Hp.
  - rewrite (sum_over_ext _ (λ p, (1 - d) / len corpus
               + d * sum_over (λ q, link_weight corpus q p
                                    * rank_of (rank_seq corpus d k) q)
                       (nodes corpus))).
    2:{ intros p Hp%elem_of_nodes. cbn [rank_seq].
        rewrite rank_of_next_ranks by done. apply next_rank_weights. }
    rewrite sum_over_plus, sum_over_const, sum_over_scale, sum_over_swap.
    rewrite length_nodes.
    assert (Qc_of_nat (size corpus) * ((1 - d) / len corpus) = 1 - d) as ->.
    { revert HN. unfold len. generalize (Qc_of_nat (size corpus)).
      intros N HN. by field. }
    assert (sum_over (λ q, sum_over (λ p, link_weight corpus q p
                                          * rank_of (rank_seq corpus d k) q)
                             (nodes corpus)) (nodes corpus)
            ≤ sum_over (rank_of (rank_seq corpus d k)) (nodes corpus)) as Hle.
    { apply sum_over_le. intros q _.
      rewrite (sum_over_ext _ (λ p, rank_of (rank_seq corpus d k) q
                                    * link_weight corpus q p))
        by (intros; ring).
      rewrite sum_over_scale.
      rewrite <- (Qcmult_1_r (rank_of (rank_seq corpus d k) q)) at 2.
      apply Qcmult_le_mono_nonneg_l; [by apply rank_seq_nonneg|].
      apply sum_link_weight_le_1. }
    apply (Qcmult_le_mono_nonneg_l _ _ d Hd0) in Hle.
    apply (Qcmult_le_mono_nonneg_l _ _ d Hd0) in IH.
    revert Hle IH.
    generalize (d * sum_over (λ q, sum_over (λ p, link_weight corpus q p
                                * rank_of (rank_seq corpus d k) q)
                                (nodes corpus)) (nodes corpus))
      (d * sum_over (rank_of (rank_seq corpus d k)) (nodes corpus)).
    intros a b Hle IH. rewrite Qcmult_1_r in IH. qc_lra.
Qed.

(** X11.  Links to pages that are not in the graph lose rank and never
    create it: over exact rational arithmetic, on every non-empty graph,
    whatever its links point to, and for a damping factor of [[0,1]], the
    ranks the solver returns add up to at most one. *)
Theorem iterate_pagerank_sum_at_most_one fuel
    (corpus : gmap string (gset string)) (d : Qc) c' r :
  corpus ≠ ∅ →
  0 ≤ d → d ≤ 1 →
  iterate_pagerank fuel corpus d = Ok (c', r) →
  sumQc (dict_values r) ≤ 1.
Proof.
  intros Hne Hd0 Hd1 Hret.
  destruct (iterate_pagerank_cases fuel corpus d)
    as [Hout|(k & _ & _ & _ & Hk)]; [by rewrite Hout in Hret|].
  rewrite Hk in Hret.
  assert (r = rank_seq (normalize corpus) d (S k)) as -> by congruence.
  rewrite sumQc_dict_values. unfold nodes at 1. rewrite dom_rank_seq.
  apply sum_rank_seq_le_1; [|done..].
  intros Hempty. apply Hne, map_eq. intros p.
  apply (f_equal (λ m : gmap string (gset string), m !! p)) in Hempty.
  rewrite lookup_normalize, lookup_empty in *. by destruct (corpus !! p).
Qed.

Lemma iterate_pagerank_sum_at_most_one_witness :
  ∃ fuel c' r,
    iterate_pagerank fuel {["a" := {["zz"]}]} d85 = Ok (c', r)
    ∧ sumQc (dict_values r) ≤ 1.
Proof.
  assert (0 ≤ d85) as H3 by (vm_compute; discriminate).
  assert (d85 ≤ 1) as H4 by (vm_compute; discriminate).
  destruct (iterate_pagerank_returns {["a" := {["zz"]}]} d85)
    as (fuel & c' & r & Hret); [exact H3|vm_compute; reflexivity|].
  exists fuel, c', r. split; [exact Hret|].
  apply (iterate_pagerank_sum_at_most_one fuel {["a" := {["zz"]}]} d85 c' r);
    [compute_done|exact H3|exact H4|exact Hret].
Defined.


(** ** [crawl] *)

Lemma list_ascii_of_string_app (a b : string) :
  String.list_ascii_of_string (a +:+ b)
  = String.list_ascii_of_string a ++ String.list_ascii_of_string b.
Proof. induction a as [|c a IH]; simpl; [done|]. by rewrite IH. Qed.

(** [s.endswith(suffix)] holds exactly when [s] is some string followed
    by [suffix]. *)
Lemma endswith_spec (s suffix : string) :
  endswith s suffix = true ↔ ∃ stem, s = stem +:+ suffix.
Proof.
  unfold endswith. rewrite bool_decide_eq_true. split.
  - intros [k Hk]. exists (String.string_of_list_ascii k).
    rewrite <- (String.string_of_list_ascii_of_string s), Hk.
    rewrite <- (String.string_of_list_ascii_of_string
                  (String.string_of_list_ascii k +:+ suffix)).
    by rewrite list_ascii_of_string_app, String.list_ascii_of_string_of_list_ascii.
  - intros [stem ->]. exists (String.list_ascii_of_string stem).
    apply list_ascii_of_string_app.
Qed.

Lemma for_each_pure {A S : Type} (l : list A) (s : S) (step : S → A → S)
    (body : S → A → res S) :
  (∀ s x, body s x = Ok (step s x)) →
  for_each l s body = Ok (foldl step s l).
Proof.
  intros Hbody. revert s. induction l as [|x l IH]; intros s; [done|].
  cbn [for_each foldl]. rewrite Hbody. cbn [mbind res_bind]. apply IH.
Qed.

Section crawl.
Context (findall : string → list string).

Lemma crawl_raw_snoc directory filename contents :
  crawl_raw findall (directory ++ (filename, contents) :: [])
  = if endswith filename ".html"
    then <[filename := list_to_set (findall contents) ∖ {[filename]}]>
           (crawl_raw findall directory)
    else crawl_raw findall directory.
Proof. unfold crawl_raw. by rewrite foldl_snoc. Qed.

Lemma elem_of_dom_crawl_raw directory f :
  f ∈ dom (crawl_raw findall directory)
  ↔ f ∈ directory.*1 ∧ endswith f ".html" = true.
Proof.
  induction directory as [|[f' c'] directory IH] using rev_ind.
  - unfold crawl_raw. simpl. rewrite dom_empty_L.
    split; [set_solver|]. by intros [?%not_elem_of_nil _].
  - rewrite crawl_raw_snoc, fmap_app, elem_of_app. simpl.
    rewrite list_elem_of_singleton.
    destruct (endswith f' ".html") eqn:Hf'.
    + rewrite dom_insert_L, elem_of_union, elem_of_singleton, IH.
      split; [|tauto]. intros [->|?]; tauto.
    + rewrite IH. split; [tauto|]. intros [[?| ->] ?]; [tauto|congruence].
Qed.

Lemma crawl_raw_no_self directory f links :
  crawl_raw findall directory !! f = Some links → f ∉ links.
Proof.
  revert links. induction directory as [|[f' c'] directory IH] using rev_ind;
    intros links.
  - unfold crawl_raw. simpl. by rewrite lookup_empty.
  - rewrite crawl_raw_snoc. destruct (endswith f' ".html"); [|apply IH].
    destruct (decide (f = f')) as [->|Hne].
    + rewrite lookup_insert_eq. intros [= <-]. set_solver.
    + rewrite lookup_insert_ne by done. apply IH.
Qed.

Lemma crawl_raw_lookup directory f contents :
  NoDup directory.*1 →
  (f, contents) ∈ directory →
  endswith f ".html" = true →
  crawl_raw findall directory !! f
  = Some (list_to_set (findall contents) ∖ {[f]}).
Proof.
  induction directory as [|[f' c'] directory IH] using rev_ind;
    intros Hnd Hin Hhtml.
  - by apply not_elem_of_nil in Hin.
  - rewrite fmap_app in Hnd. apply NoDup_app in Hnd as (Hnd & Hfresh & _).
    rewrite crawl_raw_snoc. apply elem_of_app in Hin as [Hin|Hin].
    + assert (f ≠ f') as Hne.
      { intros ->. apply (Hfresh f'); [|simpl; left].
        apply list_elem_of_fmap. by exists (f', contents). }
      destruct (endswith f' ".html"); [rewrite lookup_insert_ne by done|];
        by apply IH.
    + apply list_elem_of_singleton in Hin as [= -> ->].
      rewrite Hhtml. apply lookup_insert_eq.
Qed.

(** The second loop of [crawl]: every set of links is cut down to the
    links that are keys. *)
Lemma for_each_keep_known (l : list string) (D : gset string)
    (c : gmap string (gset string)) :
  dom c = D →
  NoDup l →
  (∀ x, x ∈ l → x ∈ D) →
  for_each l c (λ pages filename,
    links ← getitem pages filename;
    Ok (<[filename := filter (λ link, is_Some (pages !! link)) links]> pages))
  = Ok (map_imap (λ f links,
          Some (if decide (f ∈ l) then filter (λ link, link ∈ D) links
                else links)) c).
Proof.
  revert c. induction l as [|x l IH]; intros c Hdom Hnd Hin.
  - simpl. f_equal. apply map_eq. intros q. rewrite map_lookup_imap.
    by destruct (c !! q).
  - apply NoDup_cons in Hnd as [Hx Hnd].
    assert (x ∈ dom c) as [links Hlinks]%elem_of_dom
      by (rewrite Hdom; apply Hin; left).
    cbn [for_each]. rewrite (getitem_ok _ _ _ Hlinks). cbn [mbind res_bind].
    assert (filter (λ link, is_Some (c !! link)) links
            = filter (λ link, link ∈ D) links) as ->.
    { apply set_eq. intros y. rewrite !elem_of_filter, <- Hdom, elem_of_dom. done. }
    rewrite IH; [|rewrite dom_insert_L; apply elem_of_dom_2 in Hlinks; set_solver
                 |done|intros; apply Hin; by right].
    f_equal. apply map_eq. intros q. rewrite !map_lookup_imap.
    destruct (decide (q = x)) as [->|Hq].
    + rewrite lookup_insert_eq, Hlinks. simpl. f_equal.
      rewrite decide_False by done. by rewrite decide_True by left.
    + rewrite lookup_insert_ne by done. destruct (c !! q) as [v|]; [|done].
      simpl. f_equal. apply decide_ext. rewrite elem_of_cons. naive_solver.
Qed.

Lemma crawl_ok directory :
  crawl findall directory = Ok (crawl_graph findall directory).
Proof.
  unfold crawl, crawl_graph.
  rewrite (for_each_pure directory ∅
             (λ pages '(filename, contents),
                if endswith filename ".html"
                then <[filename := list_to_set (findall contents) ∖ {[filename]}]>
                       pages
                else pages)).
  2:{ intros s [f c]. by destruct (endswith f ".html"). }
  fold (crawl_raw findall directory). cbn [mbind res_bind].
  rewrite (for_each_keep_known _ (dom (crawl_raw findall directory)));
    [|done|apply dict_keys_NoDup|].
  - f_equal. apply map_eq. intros q. rewrite map_lookup_imap, lookup_fmap.
    destruct (crawl_raw findall directory !! q) as [v|] eqn:Hq; [|done].
    simpl. f_equal. rewrite decide_True; [done|].
    apply elem_of_dict_keys. eauto.
  - intros x. by rewrite elem_of_dict_keys, elem_of_dom.
Qed.

Lemma elem_of_dom_crawl_graph directory f :
  f ∈ dom (crawl_graph findall directory)
  ↔ f ∈ directory.*1 ∧ ∃ stem, f = stem +:+ ".html".
Proof.
  unfold crawl_graph.
  by rewrite dom_fmap_L, elem_of_dom_crawl_raw, endswith_spec.
Qed.

Lemma crawl_graph_invariant directory :
  reference_invariant (crawl_graph findall directory).
Proof.
  intros f links. unfold crawl_graph. rewrite lookup_fmap, dom_fmap_L.
  destruct (crawl_raw findall directory !! f) as [raw|]; [|done].
  intros [= <-] x. rewrite elem_of_filter. tauto.
Qed.
End crawl.


(** X13.  The graph [crawl] returns keeps its links inside its pages,
    and no page of it links to itself: it is a graph as the other
    functions expect it. *)
Theorem crawl_closed (findall : string → list string)
    (directory : list (string * string)) :
  ∃ pages,
    crawl findall directory = Ok pages
    ∧ reference_invariant pages
    ∧ ∀ f links, pages !! f = Some links → f ∉ links.
Proof.
  eexists. split; [apply crawl_ok|]. split; [apply crawl_graph_invariant|].
  intros f links. unfold crawl_graph. rewrite lookup_fmap.
  destruct (crawl_raw findall directory !! f) as [raw|] eqn:Hf; [|done].
  intros [= <-]. rewrite elem_of_filter.
  intros [_ Hself]. by eapply crawl_raw_no_self.
Qed.

(** X14.  The links of a page: in a directory whose entries have
    distinct names, [crawl] gives the page [f] the link targets found in
    its text that are pages of the directory, [f] itself left out. *)
Theorem crawl_links (findall : string → list string)
    (directory : list (string * string)) f contents :
  NoDup directory.*1 →
  (f, contents) ∈ directory →
  (∃ stem, f = stem +:+ ".html") →
  ∃ pages links,
    crawl findall directory = Ok pages
    ∧ pages !! f = Some links
    ∧ ∀ link, link ∈ links
              ↔ link ∈ findall contents ∧ link ≠ f ∧ link ∈ dom pages.
Proof.
  intros Hnd Hin Hhtml%endswith_spec.
  eexists _, _. split; [apply crawl_ok|]. unfold crawl_graph. split.
  - by rewrite lookup_fmap, (crawl_raw_lookup findall directory f contents).
  - intros link. rewrite dom_fmap_L, elem_of_filter, elem_of_difference.
    rewrite elem_of_list_to_set, elem_of_singleton. tauto.
Qed.

Lemma crawl_links_witness :
  ∃ pages links,
    crawl (λ contents, contents :: [])
      (("1.html", "2.html") :: ("2.html", "1.html") :: []) = Ok pages
    ∧ pages !! "1.html" = Some links
    ∧ ∀ link, link ∈ links
              ↔ link ∈ "2.html" :: [] ∧ link ≠ "1.html" ∧ link ∈ dom pages.
Proof.
  apply (crawl_links (λ contents, contents :: [])
           (("1.html", "2.html") :: ("2.html", "1.html") :: [])
           "1.html" "2.html").
  - compute_done.
  - compute_done.
  - exists "1". reflexivity.
Defined.

Lemma crawl_raw_perm (findall : string → list string)
    (directory directory' : list (string * string)) :
  NoDup directory.*1 →
  directory ≡ₚ directory' →
  crawl_raw findall directory = crawl_raw findall directory'.
Proof.
  intros Hnd Hperm.
  assert (NoDup directory'.*1) as Hnd' by (by rewrite <- Hperm).
  apply map_eq. intros f.
  destruct (decide (f ∈ dom (crawl_raw findall directory))) as [Hf|Hf].
  - apply elem_of_dom_crawl_raw in Hf as [Hin Hhtml].
    apply list_elem_of_fmap in Hin as ([f' c] & -> & Hin). simpl in *.
    rewrite (crawl_raw_lookup findall directory f' c) by done.
    rewrite (crawl_raw_lookup findall directory' f' c); [done..|by rewrite <- Hperm|done].
  - assert (f ∉ dom (crawl_raw findall directory')) as Hf'.
    { rewrite elem_of_dom_crawl_raw in *. by rewrite <- Hperm. }
    apply not_elem_of_dom in Hf, Hf'. by rewrite Hf, Hf'.
Qed.

(** X15.  The order in which [os.listdir] gives the entries plays no
    part: two listings of the same entries, with distinct names, give the
    same graph. *)
Theorem crawl_order_irrelevant (findall : string → list string)
    (directory directory' : list (string * string)) :
  NoDup directory.*1 →
  directory ≡ₚ directory' →
  crawl findall directory = crawl findall directory'.
Proof.
  intros Hnd Hperm. rewrite !crawl_ok. unfold crawl_graph.
  by rewrite (crawl_raw_perm findall directory directory').
Qed.

Lemma crawl_order_irrelevant_witness :
  crawl (λ contents, contents :: [])
    (("1.html", "2.html") :: ("2.html", "1.html") :: [])
  = crawl (λ contents, contents :: [])
      (("2.html", "1.html") :: ("1.html", "2.html") :: []).
Proof.
  apply crawl_order_irrelevant.
  - compute_done.
  - apply perm_swap.
Defined.


(** ** [main] *)

Global Instance str_le_total : Total str_le.
Proof. intros a b. unfold str_le. destruct (String.leb_total a b); auto. Qed.







(** X16.  Run on a directory in which no entry has a name ending in
    [.html], [main] prints nothing and stops on the [IndexError] that
    [random.choice] raises in the sampler, whatever the texts are. *)
Theorem main_without_pages (findall : string → list string)
    (fs : string → list (string * string)) (prog directory : string)
    (fuel : nat) (g : rng) :
  (∀ f, f ∈ (fs directory).*1 → ¬ ∃ stem, f = stem +:+ ".html") →
  main findall fs (prog :: directory :: []) fuel g = ([], Uncaught IndexError).
Proof.
  intros Hnone. unfold main. rewrite crawl_ok.
  assert (crawl_graph findall (fs directory) = ∅) as ->.
  { apply dom_empty_iff_L, set_eq. intros f.
    rewrite elem_of_dom_crawl_graph. split; [|set_solver].
    intros [Hf Hhtml]. by destruct (Hnone f Hf). }
  by rewrite sample_pagerank_empty.
Qed.

Lemma main_without_pages_witness :
  main (λ _, []) (λ _, ("notes.txt", "") :: []) ("pagerank.py" :: "corpus" :: [])
    48 g0
  = ([], Uncaught IndexError).
Proof.
  apply (main_without_pages (λ _, []) (λ _, ("notes.txt", "") :: [])).
  simpl. intros f Hf%list_elem_of_singleton Hhtml%endswith_spec. subst f.
  vm_compute in Hhtml. discriminate.
Defined.


